(** * 2DAvatarChat: viseme timelines of the chat servers

    A shallow embedding of the lip-sync core of the three server
    revisions of the repository:

    - [Heuristic]: the first server (per-character visemes, jittered
      timeline with a 40 ms floor);
    - [Backup]: [server/server_backup.js] (digraph phonemizer, Gentle
      client without time-out, jittered timeline);
    - [Enhanced]: the enhanced server (Gentle client with time-out and
      silence for unaligned words, phoneme smoother, word-based fallback
      and the non-empty guard of the [/chat] handler).

    Conventions.  The value of a JavaScript number is a rational ([Q]).
    [Number(x.toFixed(3))] is rounding to the nearest multiple of 1/1000,
    ties away from zero; the times of a segment are kept as these
    decimals, which is how they are printed in the response.  The sums,
    products and quotients that only place the segments are taken
    exactly.  Where the code compares a computed difference with a
    threshold (the 30 ms of the smoother, the 50 ms of the conversion,
    the 35 ms of server_backup.js), and in [Heuristic64], where the 40 ms
    floor meets the rounding to milliseconds, the operations are those of
    binary64: the exact result rounded to the nearest double
    ([JsNum.double]).  JavaScript strings are lists of 8-bit code units
    ([list ascii]); labels (phonemes, visemes) are [string]s.
    [Math.random()] is an oracle [rand : nat -> Q] giving the i-th draw. *)

From Stdlib Require Import QArith Qround Qabs Qpower Lqa Lia ZArith.
From Stdlib Require Import String Ascii List Bool Arith.
Import ListNotations.

Local Open Scope Q_scope.

(** ** Numbers *)

Module JsNum.

(** [Math.min] and [Math.max] on two numbers. *)
Definition min (a b : Q) : Q := if Qle_bool a b then a else b.
Definition max (a b : Q) : Q := if Qle_bool a b then b else a.

(** Nearest integer to [x], ties away from zero (the integer [n] that
    [Number.prototype.toFixed] picks, with the sign handled first). *)
Definition roundHalfAway (x : Q) : Z :=
  if Qle_bool 0 x then Qfloor (x + (1#2))
  else (- Qfloor (- x + (1#2)))%Z.

(** [Number(x.toFixed(3))]. *)
Definition toFixed3 (x : Q) : Q := Qred (roundHalfAway (x * 1000) # 1000).

(** [x || d] for a number [x]: zero is falsy. *)
Definition orElse (x d : Q) : Q := if Qeq_bool x 0 then d else x.

(** *** binary64

    The doubles around a positive [x] are the multiples of [2^e], where
    [e] lies 52 binary places under the leading bit of [x] and not under
    -1074 (the subnormal numbers).  [double x] is the nearest of them,
    ties to the even multiple.  The infinities are left out: no number
    of this program comes near [2^1024]. *)

Definition pow2 (e : Z) : Q := Qpower 2 e.

(** Nearest integer, ties to even. *)
Definition roundHalfEven (x : Q) : Z :=
  let f := Qfloor x in
  match Qcompare (x - inject_Z f) (1#2) with
  | Lt => f
  | Gt => (f + 1)%Z
  | Eq => if Z.even f then f else (f + 1)%Z
  end.

(** The integer part of the binary logarithm of a positive [x]. *)
Definition ilog2 (x : Q) : Z :=
  let k := (Z.log2 (Qnum x) - Z.log2 (Zpos (Qden x)))%Z in
  if Qle_bool (pow2 k) x then k else (k - 1)%Z.

Definition ulpExponent (x : Q) : Z := Z.max (-1074) (ilog2 x - 52).

(** The nearest double of a positive [x]. *)
Definition nearest (x : Q) : Q :=
  let e := ulpExponent x in
  inject_Z (roundHalfEven (x / pow2 e)) * pow2 e.

(** The double that a literal or a decimal stands for:
    [Number("0.03")], [Number(x.toFixed(3))] read back as a number. *)
Definition double (x : Q) : Q :=
  let r := Qred x in
  match Qcompare r 0 with
  | Eq => 0
  | Gt => Qred (nearest r)
  | Lt => Qred (- nearest (- r))
  end.

(** [a + b], [a - b], [a * b] and [a / b] on two doubles: the exact
    result, rounded. *)
Definition add (a b : Q) : Q := double (a + b).
Definition sub (a b : Q) : Q := double (a - b).
Definition mul (a b : Q) : Q := double (a * b).
Definition div (a b : Q) : Q := double (a / b).

End JsNum.

(** ** Strings *)

Module JsString.

Definition t := list ascii.

Definition lit (s : string) : t := list_ascii_of_string s.

(** [a === b] on strings. *)
Fixpoint eqb (a b : t) : bool :=
  match a, b with
  | [], [] => true
  | c :: a', d :: b' => Ascii.eqb c d && eqb a' b'
  | _, _ => false
  end.

(** [String.prototype.toLowerCase] on one 8-bit code unit: A-Z and the
    Latin-1 capitals (all of U+00C0..U+00DE but the multiplication sign). *)
Definition lowerChar (c : ascii) : ascii :=
  let n := nat_of_ascii c in
  if ((65 <=? n) && (n <=? 90))%nat
     || ((192 <=? n) && (n <=? 222) && negb (n =? 215))%nat
  then ascii_of_nat (n + 32) else c.

Definition toLowerCase (s : t) : t := map lowerChar s.

(** [s.slice(i, j)] for [0 <= i <= j]. *)
Definition slice (s : t) (i j : nat) : t := firstn (j - i) (skipn i s).

Fixpoint startsWith (s sub : t) : bool :=
  match sub, s with
  | [], _ => true
  | _ :: _, [] => false
  | c :: sub', d :: s' => Ascii.eqb c d && startsWith s' sub'
  end.

(** [s.includes(sub)]: [sub] occurs in [s] as a substring. *)
Fixpoint includes (s sub : t) : bool :=
  startsWith s sub ||
  match s with
  | [] => false
  | _ :: s' => includes s' sub
  end.

(** [text[i]] as a string: the one character at [i], or the empty
    string where [text[i]] is undefined. *)
Definition charAt (s : t) (i : nat) : t :=
  match nth_error s i with
  | Some c => [c]
  | None => []
  end.

(** The 8-bit code units matched by [\s]. *)
Definition isSpace (c : ascii) : bool :=
  let n := nat_of_ascii c in
  ((9 <=? n) && (n <=? 13) || (n =? 32) || (n =? 160))%nat.

(** The code units matched by [\w]: letters, digits and the underscore. *)
Definition isWordChar (c : ascii) : bool :=
  let n := nat_of_ascii c in
  ((48 <=? n) && (n <=? 57) || (65 <=? n) && (n <=? 90)
   || (97 <=? n) && (n <=? 122) || (n =? 95))%nat.

(** Letters and digits only. *)
Definition isAlnum (c : ascii) : bool :=
  let n := nat_of_ascii c in
  ((48 <=? n) && (n <=? 57) || (65 <=? n) && (n <=? 90)
   || (97 <=? n) && (n <=? 122))%nat.

End JsString.

(** [arr.includes(x)] on an array of labels. *)
Definition labelIn (x : string) (arr : list string) : bool :=
  existsb (String.eqb x) arr.

(** [seq.length === 0 || seq[seq.length - 1] !== v]. *)
Definition endsOtherThan (seq : list string) (v : string) : bool :=
  match rev seq with
  | [] => true
  | lastv :: _ => negb (String.eqb lastv v)
  end.

(** A viseme segment as it is sent to the clients. *)
Record VisemeSegment := mkViseme {
  viseme : string;
  start : Q;
  end_ : Q;
  confidence : option Q   (* [None]: the object has no such field *)
}.

(** [timeline[timeline.length - 1].end = e] (nothing on an empty array,
    where the servers guard the assignment or have returned before). *)
Fixpoint setLastEnd (tl : list VisemeSegment) (e : Q) : list VisemeSegment :=
  match tl with
  | [] => []
  | [s] => [mkViseme (viseme s) (start s) e (confidence s)]
  | s :: tl' => s :: setLastEnd tl' e
  end.

(** The start of the first segment and the end of the last one. *)
Definition firstStart (tl : list VisemeSegment) : option Q :=
  match tl with
  | [] => None
  | s :: _ => Some (start s)
  end.

Definition lastEnd (tl : list VisemeSegment) : option Q :=
  match rev tl with
  | [] => None
  | s :: _ => Some (end_ s)
  end.

(** Sum of [end - start] over a timeline. *)
Definition totalDuration (tl : list VisemeSegment) : Q :=
  fold_right (fun s acc => (end_ s - start s) + acc) 0 tl.

(** The oracle of a [Math.random()] that always draws [r]. *)
Definition constRand (r : Q) : nat -> Q := fun _ => r.

(** ** server_backup.js: digraph phonemizer and jittered timeline *)

Module Backup.

Import JsString.

(** [charToPhonemePair(text, i)]: the phoneme and the number of
    characters it consumed. *)
Definition charToPhonemePair (text : JsString.t) (i : nat) : string * nat :=
  let pair := toLowerCase (slice text i (i + 2)) in
  if eqb pair (lit "th") then ("TH"%string, 2%nat)
  else if eqb pair (lit "sh") then ("SH"%string, 2%nat)
  else if eqb pair (lit "ch") then ("CH"%string, 2%nat)
  else if eqb pair (lit "ph") then ("F"%string, 2%nat)
  else if eqb pair (lit "oo") then ("UW"%string, 2%nat)
  else if eqb pair (lit "ee") then ("IY"%string, 2%nat)
  else if eqb pair (lit "ai") then ("AY"%string, 2%nat)
  else if eqb pair (lit "ou") then ("OW"%string, 2%nat)
  else
    let ch := toLowerCase (charAt text i) in
    if includes (lit "a") ch then ("AA"%string, 1%nat)
    else if includes (lit "e") ch then ("EH"%string, 1%nat)
    else if includes (lit "i") ch then ("IY"%string, 1%nat)
    else if includes (lit "o") ch then ("OW"%string, 1%nat)
    else if includes (lit "u") ch then ("UH"%string, 1%nat)
    else if includes (lit "pbm") ch then ("M"%string, 1%nat)
    else if includes (lit "fv") ch then ("FV"%string, 1%nat)
    else if includes (lit "l") ch then ("L"%string, 1%nat)
    else if includes (lit "sz") ch then ("S"%string, 1%nat)
    else if includes (lit "tdnrkg") ch then ("T"%string, 1%nat)
    else ("AA"%string, 1%nat).

Definition phonemeToViseme (ph : string) : string :=
  if labelIn ph ["AA"; "AE"; "AH"; "AY"]%string then "A"
  else if labelIn ph
            ["EH"; "EE"; "IY"; "IH"; "S"; "Z"; "SH"; "CH"; "TH"]%string
       then "E"
  else if labelIn ph ["OW"; "OO"; "UH"; "UW"]%string then "O"
  else if labelIn ph ["M"; "P"; "B"]%string then "M"
  else if labelIn ph ["F"; "V"; "FV"]%string then "FV"
  else if labelIn ph ["L"]%string then "L"
  else "A".

(** The state of the [while] loop of [textToVisemeSequence]. *)
Record ScanState := mkScan { scan_i : nat; scan_seq : list string }.

(** One iteration of the loop body. *)
Definition scanStep (text : JsString.t) (st : ScanState) : ScanState :=
  let '(ph, skip) := charToPhonemePair text (scan_i st) in
  let vis := phonemeToViseme ph in
  mkScan (scan_i st + skip)
         (if endsOtherThan (scan_seq st) vis
          then scan_seq st ++ [vis] else scan_seq st).

(** [while (i < text.length) { ... }], with a bound on the number of
    iterations; [None] when the bound runs out before the loop exits. *)
Fixpoint scanLoop (fuel : nat) (text : JsString.t) (st : ScanState)
  : option ScanState :=
  if (length text <=? scan_i st)%nat then Some st
  else match fuel with
       | O => None
       | S fuel' => scanLoop fuel' text (scanStep text st)
       end.

(** [textToVisemeSequence(text)]; the loop needs at most [text.length]
    iterations ([BackupFacts.scanLoop_enough]). *)
Definition textToVisemeSequence (text : JsString.t) : list string :=
  match scanLoop (length text) text (mkScan 0 []) with
  | Some st => scan_seq st
  | None => []
  end.

(** The loop of [buildVisemeTimeline]: [i] counts the draws of
    [Math.random()], [cursor] is the running end. *)
Fixpoint timelineLoop (rand : nat -> Q) (avg duration : Q) (i : nat)
    (cursor : Q) (visemes : list string) : list VisemeSegment :=
  match visemes with
  | [] => []
  | v :: rest =>
      let hold := avg * ((9#10) + rand i * (3#10)) in
      let start := cursor in
      let end' := JsNum.min duration (cursor + hold) in
      mkViseme v (JsNum.toFixed3 start) (JsNum.toFixed3 end') None
      :: timelineLoop rand avg duration (S i) end' rest
  end.

(** [buildVisemeTimeline(visemes, duration)]. *)
Definition buildVisemeTimeline (rand : nat -> Q) (visemes : list string)
    (duration : Q) : list VisemeSegment :=
  match visemes with
  | [] => []
  | _ =>
      let avg := duration / inject_Z (Z.of_nat (length visemes)) in
      setLastEnd (timelineLoop rand avg duration 0 0 visemes)
                 (JsNum.toFixed3 duration)
  end.

End Backup.

(** ** The first server: per-character visemes, timeline with a floor *)

Module Heuristic.

Import JsString.

Definition charToViseme (c : ascii) : string :=
  let ch := [lowerChar c] in
  if includes (lit "aeiou") ch then "A"
  else if includes (lit "bdpv") ch then "M"
  else if includes (lit "fvw") ch then "FV"
  else if includes (lit "l") ch then "L"
  else if includes (lit "szcjx") ch then "E"
  else if includes (lit "o") ch then "O"
  else "A".

(** [/[\w']/i.test(ch)]. *)
Definition isKept (c : ascii) : bool :=
  isWordChar c || (nat_of_ascii c =? 39)%nat.

(** The body of the [for] loop of [textToVisemeSequence]. *)
Definition seqStep (seq : list string) (ch : ascii) : list string :=
  if negb (isKept ch) then seq
  else
    let v := charToViseme ch in
    if endsOtherThan seq v then seq ++ [v] else seq.

Definition textToVisemeSequence (text : JsString.t) : list string :=
  fold_left seqStep text [].

(** The jittered hold of the i-th viseme, never under 40 ms. *)
Definition holdOf (rand : nat -> Q) (base : Q) (i : nat) : Q :=
  JsNum.max (4#100) (base * ((85#100) + rand i * (3#10))).

Fixpoint timelineLoop (rand : nat -> Q) (base durationSeconds : Q) (i : nat)
    (cursor : Q) (visemeSeq : list string) : list VisemeSegment :=
  match visemeSeq with
  | [] => []
  | v :: rest =>
      let dur := holdOf rand base i in
      let start := cursor in
      let end' := JsNum.min durationSeconds (cursor + dur) in
      mkViseme v (JsNum.toFixed3 start) (JsNum.toFixed3 end') None
      :: timelineLoop rand base durationSeconds (S i) end' rest
  end.

Definition buildVisemeTimeline (rand : nat -> Q) (visemeSeq : list string)
    (durationSeconds : Q) : list VisemeSegment :=
  match visemeSeq with
  | [] => []
  | _ =>
      let base := durationSeconds / inject_Z (Z.of_nat (length visemeSeq)) in
      setLastEnd (timelineLoop rand base durationSeconds 0 0 visemeSeq)
                 (JsNum.toFixed3 durationSeconds)
  end.

(** The running cursor before the i-th viseme, and whether the clamp
    [Math.min(durationSeconds, cursor + dur)] leaves the i-th hold whole. *)
Fixpoint cursorAt (rand : nat -> Q) (base durationSeconds : Q) (i : nat) : Q :=
  match i with
  | O => 0
  | S j =>
      JsNum.min durationSeconds
                (cursorAt rand base durationSeconds j + holdOf rand base j)
  end.

Definition unclamped (rand : nat -> Q) (n : nat) (durationSeconds : Q)
    (i : nat) : Prop :=
  let base := durationSeconds / inject_Z (Z.of_nat n) in
  cursorAt rand base durationSeconds i + holdOf rand base i <= durationSeconds.

End Heuristic.

(** ** The timeline of the first server, in binary64

    [buildVisemeTimeline] of the first server once more, every operation
    being the one of binary64; the arguments are doubles.  The segments
    hold the decimals of [toFixed(3)]. *)

Module Heuristic64.

(** [Math.max(0.04, base * (0.85 + (Math.random() * 0.3)))]. *)
Definition holdOf (rand : nat -> Q) (base : Q) (i : nat) : Q :=
  JsNum.max (JsNum.double (4#100))
    (JsNum.mul base
       (JsNum.add (JsNum.double (85#100))
          (JsNum.mul (rand i) (JsNum.double (3#10))))).

Fixpoint timelineLoop (rand : nat -> Q) (base durationSeconds : Q) (i : nat)
    (cursor : Q) (visemeSeq : list string) : list VisemeSegment :=
  match visemeSeq with
  | [] => []
  | v :: rest =>
      let dur := holdOf rand base i in
      let start := cursor in
      let end' := JsNum.min durationSeconds (JsNum.add cursor dur) in
      mkViseme v (JsNum.toFixed3 start) (JsNum.toFixed3 end') None
      :: timelineLoop rand base durationSeconds (S i) end' rest
  end.

Definition buildVisemeTimeline (rand : nat -> Q) (visemeSeq : list string)
    (durationSeconds : Q) : list VisemeSegment :=
  match visemeSeq with
  | [] => []
  | _ =>
      let base :=
        JsNum.div durationSeconds (inject_Z (Z.of_nat (length visemeSeq))) in
      setLastEnd (timelineLoop rand base durationSeconds 0 0 visemeSeq)
                 (JsNum.toFixed3 durationSeconds)
  end.

(** The running cursor before the i-th viseme, and whether the clamp
    [Math.min(durationSeconds, cursor + dur)] leaves the i-th hold whole. *)
Fixpoint cursorAt (rand : nat -> Q) (base durationSeconds : Q) (i : nat) : Q :=
  match i with
  | O => 0
  | S j =>
      JsNum.min durationSeconds
        (JsNum.add (cursorAt rand base durationSeconds j) (holdOf rand base j))
  end.

Definition unclamped (rand : nat -> Q) (n : nat) (durationSeconds : Q)
    (i : nat) : Prop :=
  let base := JsNum.div durationSeconds (inject_Z (Z.of_nat n)) in
  JsNum.add (cursorAt rand base durationSeconds i) (holdOf rand base i)
  <= durationSeconds.


End Heuristic64.

(** ** The enhanced server: Gentle client, smoother, word-based fallback *)

Module Enhanced.

Import JsString.

(** A phoneme segment of the aligner's timeline. *)
Record PhonemeSegment := mkPhone {
  phoneme : string;
  ph_start : Q;
  ph_end : Q;
  ph_confidence : Q
}.

(** The own properties of [PHONEME_TO_VISEME]. *)
Definition PHONEME_TO_VISEME : list (string * string) :=
  [ ("SIL", "rest"); ("SPN", "rest"); ("CLOSURE", "rest");
    ("AA", "A"); ("AE", "A"); ("AH", "A"); ("AO", "O"); ("AW", "O");
    ("AY", "A"); ("EH", "E"); ("ER", "A"); ("EY", "E");
    ("IY", "E"); ("IH", "E"); ("Y", "E");
    ("OW", "O"); ("UH", "O"); ("UW", "O");
    ("B", "M"); ("P", "M"); ("M", "M"); ("EM", "M");
    ("F", "FV"); ("V", "FV");
    ("L", "L"); ("EL", "L");
    ("S", "E"); ("Z", "E"); ("SH", "E"); ("ZH", "E");
    ("CH", "E"); ("JH", "E");
    ("TH", "E"); ("DH", "E");
    ("N", "M"); ("NG", "M"); ("EN", "M");
    ("T", "M"); ("D", "M"); ("K", "A"); ("G", "A");
    ("R", "O"); ("W", "O"); ("WH", "O");
    ("DEFAULT", "A") ]%string.

Fixpoint lookup (key : string) (table : list (string * string))
  : option string :=
  match table with
  | [] => None
  | (k, v) :: table' => if String.eqb k key then Some v else lookup key table'
  end.

(** [PHONEME_TO_VISEME[ph] || dflt]. *)
Definition visemeOr (ph : string) (dflt : string) : string :=
  match lookup ph PHONEME_TO_VISEME with
  | Some v => v
  | None => dflt
  end.

Definition visemeOf (ph : string) : string :=
  visemeOr ph (visemeOr "DEFAULT" "A").

(** *** The Gentle response, as far as the client reads it

    A field is [None] when it is absent; the client never reads a field
    of another type than the one given here from a well-formed Gentle
    response. *)

Record GentlePhone := mkGPhone {
  g_phone : option JsString.t;
  g_start : option Q;
  g_duration : option Q;
  g_score : option Q
}.

Record GentleWord := mkGWord {
  w_case : option JsString.t;
  w_alignedWord : option JsString.t;
  w_phones : option (list GentlePhone);
  w_start : option Q;
  w_end : option Q;
  w_word : option JsString.t
}.

(** Truthiness of an optional string and of an optional number. *)
Definition truthyStr (s : option JsString.t) : bool :=
  match s with
  | Some (_ :: _) => true
  | _ => false
  end.

Definition numOr (x : option Q) (d : Q) : Q :=
  match x with
  | Some v => JsNum.orElse v d
  | None => d
  end.

(** [typeof x === "number" ? x : d]. *)
Definition numberOr (x : option Q) (d : Q) : Q :=
  match x with
  | Some v => v
  | None => d
  end.

Definition isDigit (c : ascii) : bool :=
  let n := nat_of_ascii c in ((48 <=? n) && (n <=? 57))%nat.

(** [toUpperCase] on one 8-bit code unit, as a string: a-z and the
    Latin-1 small letters; the sharp s becomes [SS].  (The micro sign and
    the y with diaeresis, whose capitals are not 8-bit, are left as they
    are; none of them occurs in a table of this file.) *)
Definition upperChar (c : ascii) : JsString.t :=
  let n := nat_of_ascii c in
  if (n =? 223)%nat then lit "SS"
  else if ((97 <=? n) && (n <=? 122))%nat
          || ((224 <=? n) && (n <=? 254) && negb (n =? 247))%nat
       then [ascii_of_nat (n - 32)]
       else [c].

Definition toUpperCase (s : JsString.t) : JsString.t := flat_map upperChar s.

(** [String(p.phone)] with its digits removed, in upper case. *)
Definition phoneLabel (s : JsString.t) : string :=
  string_of_list_ascii (toUpperCase (filter (fun c => negb (isDigit c)) s)).

Definition guessPhonemeFromWord (word : JsString.t) : string :=
  let firstChar := toUpperCase (charAt word 0) in
  if includes (lit "AEIOU") firstChar then "AA"
  else if includes (lit "BPM") firstChar then "M"
  else if includes (lit "FVCK") firstChar then "FV"
  else if includes (lit "SZ") firstChar then "S"
  else if includes (lit "L") firstChar then "L"
  else "AA".

(** The state of the normalising loop: the phonemes pushed so far and
    the running time cursor. *)
Record NormState := mkNorm {
  phones : list PhonemeSegment;
  currentTime : Q
}.

Definition silenceAt (t : Q) : PhonemeSegment :=
  mkPhone "SIL" t (t + (1#10)) 0.

(** The test that sends a word to the silence branch. *)
Definition notAligned (w : GentleWord) : bool :=
  match w_case w with
  | Some c => JsString.eqb c (lit "not-found-in-audio")
  | None => false
  end
  || negb (truthyStr (w_alignedWord w)).

(** The body of [for (const p of w.phones)]. *)
Definition normalizePhone (w : GentleWord) (st : NormState) (p : GentlePhone)
  : NormState :=
  if negb (truthyStr (g_phone p)) then st
  else
    let phone := phoneLabel (match g_phone p with Some s => s | None => [] end) in
    let start := numberOr (g_start p) (numberOr (w_start w) (currentTime st)) in
    let dur := numberOr (g_duration p) (5#100) in
    let end' := start + dur in
    let confidence := numOr (g_score p) 1 in
    mkNorm (phones st ++ [mkPhone phone (JsNum.toFixed3 start)
                                   (JsNum.toFixed3 end') confidence])
           end'.

(** The body of [for (const w of json.words)]. *)
Definition normalizeWord (st : NormState) (w : GentleWord) : NormState :=
  if notAligned w then
    mkNorm (phones st ++ [silenceAt (currentTime st)])
           (currentTime st + (1#10))
  else
    match w_phones w with
    | Some ps => fold_left (normalizePhone w) ps st
    | None =>
        let start := numOr (w_start w) (currentTime st) in
        let end' := numOr (w_end w) (start + (1#10)) in
        let wordPhoneme :=
          if truthyStr (w_word w)
          then guessPhonemeFromWord
                 (match w_word w with Some s => s | None => [] end)
          else "SIL"%string in
        mkNorm (phones st ++ [mkPhone wordPhoneme (JsNum.toFixed3 start)
                                       (JsNum.toFixed3 end') (1#2)])
               end'
    end.

Definition normalizeFrom (st : NormState) (words : list GentleWord)
  : NormState :=
  fold_left normalizeWord words st.

Definition normalizeWords (words : list GentleWord) : list PhonemeSegment :=
  phones (normalizeFrom (mkNorm [] 0) words).


(** The entry Gentle gives for a word it could not find in the audio. *)
Definition notFoundWord (word : JsString.t) : GentleWord :=
  mkGWord (Some (lit "not-found-in-audio")) None None None None (Some word).

(** *** The world of one call of the client *)

(** What [await res.json()] gives. *)
Inductive JsonBody :=
| BodyRejects                          (* the body is not JSON *)
| BodyNoWords                          (* no array under [words] *)
| BodyIllTyped                         (* an entry the loop cannot read,
                                          as a null word: a TypeError *)
| BodyWords (words : list GentleWord).

(** How the request settles if it is left alone. *)
Inductive FetchSettle :=
| FetchRejects                         (* network error *)
| FetchResponds (ok : bool) (body : JsonBody).

Record AlignerWorld := mkWorld {
  wavExists : bool;
  settleAfterMs : option N;            (* [None]: the request hangs *)
  settle : FetchSettle
}.

(** Results of the [try] block. *)
Inductive Completion (A : Type) :=
| Returned (a : A)
| Thrown.
Arguments Returned {A} a.
Arguments Thrown {A}.

Definition bind {A B} (c : Completion A) (k : A -> Completion B)
  : Completion B :=
  match c with
  | Returned a => k a
  | Thrown => Thrown
  end.

(** [try { body } catch (err) { return null; }]. *)
Definition catchNull {A} (c : Completion (option A)) : option A :=
  match c with
  | Returned r => r
  | Thrown => None
  end.

Definition ABORT_AFTER_MS : N := 10000.

(** [await fetch(url, { signal })] under the timer
    [setTimeout(() => controller.abort(), 10000)]: the request settles by
    itself before the timer fires, or the timer aborts it and the
    [await] throws. *)
Definition awaitFetch (w : AlignerWorld) : Completion (bool * JsonBody) :=
  match settleAfterMs w with
  | Some t =>
      if (t <? ABORT_AFTER_MS)%N then
        match settle w with
        | FetchRejects => Thrown
        | FetchResponds ok body => Returned (ok, body)
        end
      else Thrown
  | None => Thrown
  end.

(** What [await res.json()] and the traversal of [json.words] give once
    the body has been read: the words the normalizer gets to read, unless
    one of the two throws.  Whether and when the reading ends is told by
    [bodyReadMs] below. *)
Definition awaitJson (body : JsonBody) : Completion (list GentleWord) :=
  match body with
  | BodyRejects => Thrown
  | BodyNoWords => Returned []
  | BodyIllTyped => Thrown
  | BodyWords ws => Returned ws
  end.

(** [runForcedAligner(wavFilePath, transcript)]: the value the call
    resolves to, [None] being [null].  When the call resolves, if it
    does, is told by [awaitForcedAligner] below. *)
Definition runForcedAligner (w : AlignerWorld)
  : option (list PhonemeSegment) :=
  catchNull
    (if negb (wavExists w) then Returned None
     else
       bind (awaitFetch w) (fun '(ok, body) =>
       if negb ok then Returned None
       else
         bind (awaitJson body) (fun words =>
         let phones := normalizeWords words in
         Returned (match phones with [] => None | _ => Some phones end)))).



(** *** The call in time

    [clearTimeout(timeout)] runs as soon as [fetch] has resolved: from
    then on nothing bounds the call, and the body is still to be read,
    by [res.json()] or, on a non-OK status, by [res.text()]. *)

(** One call: its world, and how long reading the body takes once the
    response has arrived ([None]: the body never ends). *)
Record AlignerCall := mkCall {
  world : AlignerWorld;
  bodyReadMs : option N
}.

(** What [await f(...)] does for an [async] function [f]. *)
Inductive Await (A : Type) :=
| Resumes (ms : N) (a : A)     (* [ms] milliseconds after the call *)
| Hangs.                       (* never *)
Arguments Resumes {A} ms a.
Arguments Hangs {A}.

(** What the function does with a response that has arrived and whose
    body has been read. *)
Definition afterResponse (ok : bool) (body : JsonBody)
  : option (list PhonemeSegment) :=
  catchNull
    (if negb ok then Returned None
     else
       bind (awaitJson body) (fun words =>
       let phones := normalizeWords words in
       Returned (match phones with [] => None | _ => Some phones end))).

(** [await runForcedAligner(alignTmp, reply)]. *)
Definition awaitForcedAligner (c : AlignerCall)
  : Await (option (list PhonemeSegment)) :=
  let w := world c in
  if negb (wavExists w) then Resumes 0%N None
  else
    match settleAfterMs w with
    | Some t =>
        if (t <? ABORT_AFTER_MS)%N then
          match settle w with
          | FetchRejects => Resumes t None
          | FetchResponds ok body =>
              match bodyReadMs c with
              | Some r => Resumes (t + r)%N (afterResponse ok body)
              | None => Hangs
              end
          end
        else Resumes ABORT_AFTER_MS None
    | None => Resumes ABORT_AFTER_MS None
    end.

(** *** The smoother *)

Definition MERGE_THRESHOLD : Q := 3#100.

(** [next.start - current.end], computed on the doubles that the two
    times stand for. *)
Definition gap (current next : PhonemeSegment) : Q :=
  JsNum.sub (JsNum.double (ph_start next)) (JsNum.double (ph_end current)).

(** The test of the [if] in [smoothPhonemeTimeline]. *)
Definition mergeable (mergeThreshold : Q) (current next : PhonemeSegment)
  : bool :=
  String.eqb (phoneme current) (phoneme next)
  && negb (Qle_bool (JsNum.double mergeThreshold) (gap current next)).

(** [current] after [next] was merged into it. *)
Definition merged (current next : PhonemeSegment) : PhonemeSegment :=
  mkPhone (phoneme current) (ph_start current) (ph_end next)
          (JsNum.max (JsNum.orElse (ph_confidence current) (1#2))
                     (JsNum.orElse (ph_confidence next) (1#2))).

(** The body of the [for] loop, on the pair [(smoothed, current)]. *)
Definition smoothStep (mergeThreshold : Q)
    (st : list PhonemeSegment * PhonemeSegment) (next : PhonemeSegment)
  : list PhonemeSegment * PhonemeSegment :=
  let '(smoothed, current) := st in
  if mergeable mergeThreshold current next
  then (smoothed, merged current next)
  else (smoothed ++ [current], next).

Definition smoothWith (mergeThreshold : Q) (phones : list PhonemeSegment)
  : list PhonemeSegment :=
  match phones with
  | [] => []
  | first :: rest =>
      let '(smoothed, current) :=
        fold_left (smoothStep mergeThreshold) rest ([], first) in
      smoothed ++ [current]
  end.

(** [smoothPhonemeTimeline(phones)] with the default threshold. *)
Definition smoothPhonemeTimeline (phones : list PhonemeSegment)
  : list PhonemeSegment :=
  smoothWith MERGE_THRESHOLD phones.

(** *** Phonemes to visemes *)

Definition restSegment (s e : Q) (c : option Q) : VisemeSegment :=
  mkViseme "rest" s e c.

(** [a < b] on numbers. *)
Definition ltb (a b : Q) : bool := negb (Qle_bool b a).

(** [phone.end - phone.start], computed on the doubles that the two
    times stand for. *)
Definition lengthOf (phone : PhonemeSegment) : Q :=
  JsNum.sub (JsNum.double (ph_end phone)) (JsNum.double (ph_start phone)).

(** The body of the main loop at index [i]: the segment pushed, if any. *)
Definition visemeAt (phones : list PhonemeSegment) (i : nat)
  : list VisemeSegment :=
  match nth_error phones i with
  | None => []
  | Some phone =>
      let viseme := visemeOf (phoneme phone) in
      let duration := lengthOf phone in
      let confidence := JsNum.orElse (ph_confidence phone) (1#2) in
      let sandwiched :=
        ltb duration (JsNum.double (5#100))
        && (0 <? i)%nat && (i <? length phones - 1)%nat
        && match nth_error phones (i - 1), nth_error phones (i + 1) with
           | Some prev, Some next =>
               String.eqb (visemeOr (phoneme prev) "A")
                          (visemeOr (phoneme next) "A")
           | _, _ => false
           end in
      if sandwiched then []
      else [mkViseme viseme (ph_start phone) (ph_end phone) (Some confidence)]
  end.

Definition phonemesToVisemesEnhanced (phones : list PhonemeSegment)
  : list VisemeSegment :=
  let initial :=
    match phones with
    | first :: _ =>
        if ltb 0 (ph_start first)
        then [restSegment 0 (ph_start first) (Some 1)] else []
    | [] => []
    end in
  let visemes := initial ++ flat_map (visemeAt phones) (seq 0 (length phones)) in
  match rev visemes, rev phones with
  | lastViseme :: _, lastPhone :: _ =>
      if ltb (end_ lastViseme) (ph_end lastPhone)
      then visemes ++ [restSegment (end_ lastViseme) (ph_end lastPhone) (Some 1)]
      else visemes
  | _, _ => visemes
  end.

(** *** The word-based fallback *)

Definition charToVisemeEnhanced (c : ascii) : string :=
  let ch := [lowerChar c] in
  if includes (lit "aeiou") ch then "A"
  else if includes (lit "bp") ch then "M"
  else if includes (lit "m") ch then "M"
  else if includes (lit "fv") ch then "FV"
  else if includes (lit "l") ch then "L"
  else if includes (lit "sz") ch then "E"
  else if includes (lit "ckg") ch then "A"
  else if includes (lit "o") ch then "O"
  else if includes (lit "w") ch then "O"
  else if includes (lit "tdnr") ch then "M"
  else if includes (lit "h") ch then "A"
  else "rest".

(** [s.split(/\s+/)]: the pieces between the maximal runs of white
    space; [cur] is the piece being read, [inRun] tells that the previous
    character was white space. *)
Fixpoint splitFrom (s : JsString.t) (cur : JsString.t) (inRun : bool)
  : list JsString.t :=
  match s with
  | [] => [cur]
  | c :: s' =>
      if isSpace c then
        if inRun then splitFrom s' cur true
        else cur :: splitFrom s' [] true
      else splitFrom s' (cur ++ [c]) false
  end.

Definition splitSpaces (s : JsString.t) : list JsString.t :=
  splitFrom s [] false.

(** [visemeSequence.length === 0 || last.viseme !== v]. *)
Definition lastVisemeDiffers (tl : list VisemeSegment) (v : string) : bool :=
  endsOtherThan (map viseme tl) v.

(** The inner loop over the characters of a word, on the pair
    [(visemeSequence, charTime)]. *)
Definition charStep (wordEnd charDuration : Q)
    (st : list VisemeSegment * Q) (char : ascii) : list VisemeSegment * Q :=
  let '(visemeSequence, charTime) := st in
  let viseme := charToVisemeEnhanced char in
  let pushed :=
    if lastVisemeDiffers visemeSequence viseme then
      visemeSequence
      ++ [mkViseme viseme (JsNum.toFixed3 charTime)
            (JsNum.toFixed3 (JsNum.min wordEnd (charTime + charDuration)))
            None]
    else visemeSequence in
  (pushed, charTime + charDuration).

(** The outer loop over the words, on [(visemeSequence, timeCursor)]. *)
Definition wordStep (wordDuration : Q) (lastWord : JsString.t)
    (st : list VisemeSegment * Q) (word : JsString.t)
  : list VisemeSegment * Q :=
  let '(visemeSequence, timeCursor) := st in
  let wordStart := timeCursor in
  let wordEnd := timeCursor + wordDuration in
  let charDuration :=
    wordDuration / inject_Z (Z.of_nat (Nat.max (length word) 1)) in
  let '(visemeSequence', charTime) :=
    fold_left (charStep wordEnd charDuration) word (visemeSequence, wordStart) in
  if negb (JsString.eqb word lastWord) then
    (visemeSequence' ++ [restSegment charTime (charTime + (5#100)) None],
     charTime + (5#100))
  else (visemeSequence', wordEnd).

Definition generateFallbackVisemes (text : JsString.t) (duration : Q)
  : list VisemeSegment :=
  let words := splitSpaces (toLowerCase text) in
  let wordDuration :=
    duration / inject_Z (Z.of_nat (Nat.max (length words) 1)) in
  let lastWord := last words [] in
  let visemeSequence :=
    fst (fold_left (wordStep wordDuration lastWord) words ([], 0)) in
  setLastEnd visemeSequence (JsNum.toFixed3 duration).

(** *** The chat turn *)

(** [durationSeconds]: the duration probed from the synthesised wave,
    1.0 when there is no audio. *)
Definition durationOf (audio : option Q) : Q :=
  match audio with
  | Some d => d
  | None => 1
  end.

(** The reply begins with a white-space character. *)
Definition beginsWithSpace (reply : JsString.t) : bool :=
  match reply with
  | c :: _ => isSpace c
  | [] => false
  end.

(** Steps 3 to 5 of the [/chat] handler: [audio] is the duration probed
    from the synthesised wave, [None] when speech synthesis failed. *)
Definition chatTurn (audio : option Q) (world : AlignerWorld)
    (reply : JsString.t) : list VisemeSegment * string :=
  let durationSeconds := durationOf audio in
  let '(visemeTimeline, alignmentSource) :=
    match audio with
    | Some _ =>
        match runForcedAligner world with
        | Some (p :: ps) =>
            (phonemesToVisemesEnhanced (smoothPhonemeTimeline (p :: ps)),
             "gentle"%string)
        | _ => (generateFallbackVisemes reply durationSeconds,
                "fallback"%string)
        end
    | None => (generateFallbackVisemes reply durationSeconds,
               "fallback"%string)
    end in
  (match visemeTimeline with
   | [] => [restSegment 0 (JsNum.max durationSeconds (1#10)) None]
   | _ => visemeTimeline
   end,
   alignmentSource).

(** Steps 4 and 5 with the value that [await runForcedAligner(...)]
    gave. *)
Definition chatAnswer (audio : option Q)
    (phones : option (list PhonemeSegment)) (reply : JsString.t)
  : list VisemeSegment * string :=
  let durationSeconds := durationOf audio in
  let '(visemeTimeline, alignmentSource) :=
    match audio with
    | Some _ =>
        match phones with
        | Some (p :: ps) =>
            (phonemesToVisemesEnhanced (smoothPhonemeTimeline (p :: ps)),
             "gentle"%string)
        | _ => (generateFallbackVisemes reply durationSeconds,
                "fallback"%string)
        end
    | None => (generateFallbackVisemes reply durationSeconds,
               "fallback"%string)
    end in
  (match visemeTimeline with
   | [] => [restSegment 0 (JsNum.max durationSeconds (1#10)) None]
   | _ => visemeTimeline
   end,
   alignmentSource).

(** Steps 3 to 5 in time: the aligner is awaited only when there is
    audio, and [res.json(responsePayload)] comes after the [await]. *)
Definition awaitChatTurn (audio : option Q) (c : AlignerCall)
    (reply : JsString.t) : Await (list VisemeSegment * string) :=
  match audio with
  | Some _ =>
      match awaitForcedAligner c with
      | Resumes ms phones => Resumes ms (chatAnswer audio phones reply)
      | Hangs => Hangs
      end
  | None => Resumes 0%N (chatAnswer audio None reply)
  end.

End Enhanced.

(** ** Notions shared by the properties of the sequences *)

(** No two neighbours of the list are equal. *)
Fixpoint NoRepeat (l : list string) : Prop :=
  match l with
  | a :: (b :: _) as tail => a <> b /\ NoRepeat tail
  | _ => True
  end.

(** Two neighbours of the list are equal only if they are both [r]. *)
Fixpoint RepeatsOnly (r : string) (l : list string) : Prop :=
  match l with
  | a :: (b :: _) as tail => (a = b -> a = r) /\ RepeatsOnly r tail
  | _ => True
  end.

(** The mouth shapes the servers send, without and with the rest. *)
Definition MOUTH_SHAPES : list string := ["A"; "E"; "O"; "M"; "FV"; "L"]%string.

Definition VISEMES : list string := "rest"%string :: MOUTH_SHAPES.

(** ** The page script: which viseme is shown at a time *)

Module Player.

(** The search of [playVisemes] at [t] seconds of play: the viseme of the
    first segment with [t >= v.start && t < v.end], [None] when the loop
    ends with [active] still null. *)
Fixpoint activeViseme (data : list VisemeSegment) (t : Q) : option string :=
  match data with
  | [] => None
  | v :: rest =>
      if Qle_bool (start v) t && negb (Qle_bool (end_ v) t)
      then Some (viseme v)
      else activeViseme rest t
  end.

End Player.

(** ** server_backup.js: the aligned path *)

Module BackupAligned.

Import JsString.

(** The own properties of the [PHONEME_TO_VISEME] of server_backup.js. *)
Definition PHONEME_TO_VISEME : list (string * string) :=
  [ ("AA", "A"); ("AE", "A"); ("AH", "A"); ("AO", "O"); ("AW", "O");
    ("AY", "A");
    ("B", "M"); ("P", "M"); ("M", "M");
    ("F", "FV"); ("V", "FV");
    ("L", "L");
    ("S", "E"); ("Z", "E"); ("SH", "E"); ("CH", "E"); ("JH", "E");
    ("ZH", "E");
    ("IY", "E"); ("IH", "E"); ("EY", "E");
    ("OW", "O"); ("UH", "O"); ("UW", "O");
    ("TH", "E"); ("DH", "E");
    ("R", "O");
    ("N", "M"); ("T", "M"); ("D", "M"); ("K", "A"); ("G", "A") ]%string.

(** [PHONEME_TO_VISEME[ph] || "A"]. *)
Definition visemeOf (ph : string) : string :=
  match Enhanced.lookup ph PHONEME_TO_VISEME with
  | Some v => v
  | None => "A"%string
  end.

(** The Gentle response as this client reads it: [alignedWord] is an
    object that may hold an array [phones]. *)
Record PhoneJson := mkPhoneJson {
  j_phone : option JsString.t;
  j_start : option Q;
  j_duration : option Q
}.

Record AlignedWordJson := mkAlignedJson {
  j_phones : option (list PhoneJson)
}.

Record WordJson := mkWordJson {
  j_alignedWord : option AlignedWordJson;
  j_wstart : option Q;
  j_wend : option Q
}.

(** An entry of the phone list of this client. *)
Record Phone := mkBPhone {
  b_phoneme : string;
  b_start : Q;
  b_end : Q
}.

(** The phones of a word, unless the loop skips the word. *)
Definition phonesOfWord (w : WordJson) : option (list PhoneJson) :=
  match j_alignedWord w with
  | Some aw => j_phones aw
  | None => None
  end.

(** The body of [for (const p of w.alignedWord.phones)]. *)
Definition normalizePhone (w : WordJson) (acc : list Phone) (p : PhoneJson)
  : list Phone :=
  if negb (Enhanced.truthyStr (j_phone p)) then acc
  else
    let phone :=
      Enhanced.phoneLabel (match j_phone p with Some s => s | None => [] end) in
    let start :=
      Enhanced.numberOr (j_start p) (Enhanced.numberOr (j_wstart w) 0) in
    let dur :=
      Enhanced.numberOr (j_duration p)
        (match j_wend w, j_wstart w with
         | Some e, Some s => e - s
         | _, _ => 5#100
         end) in
    let end' := start + dur in
    acc ++ [mkBPhone phone (JsNum.toFixed3 start) (JsNum.toFixed3 end')].

(** The body of [for (const w of json.words)]. *)
Definition normalizeWord (acc : list Phone) (w : WordJson) : list Phone :=
  match phonesOfWord w with
  | None => acc
  | Some ps => fold_left (normalizePhone w) ps acc
  end.

Definition normalizeWords (words : list WordJson) : list Phone :=
  fold_left normalizeWord words [].

(** [Math.abs(last.end - p.start) < 0.035], computed on the doubles
    that the two times stand for. *)
Definition closeTo (lastEnd pStart : Q) : bool :=
  Enhanced.ltb
    (Qabs (JsNum.sub (JsNum.double lastEnd) (JsNum.double pStart)))
    (JsNum.double (35#1000)).

(** The body of the loop of [phonemesToVisemes]: the last segment is
    stretched in place, or a new one is pushed. *)
Definition visemeStep (vis : list VisemeSegment) (p : Phone)
  : list VisemeSegment :=
  let v := visemeOf (b_phoneme p) in
  let pushed :=
    vis ++ [mkViseme v (JsNum.toFixed3 (b_start p))
                     (JsNum.toFixed3 (b_end p)) None] in
  match rev vis with
  | lastSeg :: before =>
      if String.eqb (viseme lastSeg) v && closeTo (end_ lastSeg) (b_start p)
      then rev before
           ++ [mkViseme (viseme lastSeg) (start lastSeg) (b_end p)
                        (confidence lastSeg)]
      else pushed
  | [] => pushed
  end.

Definition phonemesToVisemes (phones : list Phone) : list VisemeSegment :=
  fold_left visemeStep phones [].

(** Step 4 of the [/chat] handler of server_backup.js: [audio] is the
    probed duration ([None] without audio), [aligned] what
    [runForcedAligner] returned. *)
Definition chatTimeline (rand : nat -> Q) (audio : option Q)
    (aligned : option (list Phone)) (reply : JsString.t)
  : list VisemeSegment :=
  let durationSeconds := Enhanced.durationOf audio in
  let heuristic :=
    Backup.buildVisemeTimeline rand (Backup.textToVisemeSequence reply)
                               durationSeconds in
  match audio with
  | Some _ =>
      match aligned with
      | Some (p :: ps) => phonemesToVisemes (p :: ps)
      | _ => heuristic
      end
  | None => heuristic
  end.

(** The times of the phones are whole milliseconds, as the normalizer
    leaves them. *)
Definition Rounded (p : Phone) : Prop :=
  JsNum.toFixed3 (b_start p) == b_start p
  /\ JsNum.toFixed3 (b_end p) == b_end p.

(** Two neighbours that the merge rule would have joined. *)
Definition joinable (a b : VisemeSegment) : bool :=
  String.eqb (viseme a) (viseme b) && closeTo (end_ a) (start b).

Fixpoint NoJoinable (tl : list VisemeSegment) : Prop :=
  match tl with
  | a :: (b :: _) as tail => joinable a b = false /\ NoJoinable tail
  | _ => True
  end.

End BackupAligned.

(** ** The duration of the synthesised wave, in the three servers *)

Module Probe.

(** What [wav-file-info] reports, as far as the servers read it; a field
    is [None] when it is absent. *)
Record WavHeader := mkHeader {
  sampleRate : option Q;
  bitsPerSample : option Q;
  numChannels : option Q
}.

Record WavData := mkData {
  dataChunkSize : option Q
}.

Record WavInfo := mkInfo {
  header : option WavHeader;
  data : option WavData
}.

(** [Number(x) || d]: an absent field is NaN. *)
Definition numberOrDefault (x : option Q) (d : Q) : Q :=
  match x with
  | Some v => JsNum.orElse v d
  | None => d
  end.

(** [info.data && info.data.dataChunkSize], when truthy. *)
Definition truthySize (info : WavInfo) : option Q :=
  match data info with
  | Some d =>
      match dataChunkSize d with
      | Some s => if Qeq_bool s 0 then None else Some s
      | None => None
      end
  | None => None
  end.

(** The computation shared by the enhanced server and server_backup.js,
    which differ in the sample rate they assume. *)
Definition durationWith (defaultRate : Q) (info : WavInfo) : Q :=
  match header info, truthySize info with
  | Some h, Some size =>
      let sampleRate := numberOrDefault (sampleRate h) defaultRate in
      let bits := numberOrDefault (bitsPerSample h) 16 in
      let channels := numberOrDefault (numChannels h) 1 in
      let bytesPerSample := JsNum.orElse (bits / 8) 2 in
      let totalSamples := size / (bytesPerSample * channels) in
      totalSamples / sampleRate
  | _, _ => 1
  end.

(** [getAudioDuration(wavBase64)] of the enhanced server; [probe] is what
    [readWavInfo] gave, [None] when it (or the file system) threw. *)
Definition getAudioDuration (probe : option WavInfo) : Q :=
  match probe with
  | Some info => durationWith 22050 info
  | None => 1
  end.

(** Step 3 of the handler of server_backup.js: [durationSeconds] starts
    at 1.0 and is assigned only inside the [if]. *)
Definition backupDuration (probe : option WavInfo) : Q :=
  match probe with
  | Some info => durationWith 44100 info
  | None => 1
  end.

(** Step 3 of the handler of the first server. *)
Definition firstDuration (probe : option WavInfo) : Q :=
  match probe with
  | None => 1
  | Some info =>
      match truthySize info with
      | None => 1
      | Some size =>
          match header info with
          | Some h =>
              match sampleRate h with
              | Some r =>
                  if Qeq_bool r 0 then
                    (* the else branch, [info.header.sampleRate || 44100] *)
                    size / (44100 * 2 * numberOrDefault (numChannels h) 1)
                  else
                    let bytesPerSample :=
                      match bitsPerSample h with
                      | Some b => JsNum.orElse (b / 8) 2
                      | None => 2
                      end in
                    let channels := numberOrDefault (numChannels h) 1 in
                    let totalSamples := size / (bytesPerSample * channels) in
                    totalSamples / r
              | None =>
                  size / (44100 * 2 * numberOrDefault (numChannels h) 1)
              end
          | None => 1   (* reading [info.header.sampleRate] throws *)
          end
      end
  end.

(** The header holds only counts: no field is negative. *)
Definition NonNegative (info : WavInfo) : Prop :=
  match header info with
  | Some h =>
      (forall r, sampleRate h = Some r -> 0 <= r)
      /\ (forall b, bitsPerSample h = Some b -> 0 <= b)
      /\ (forall c, numChannels h = Some c -> 0 <= c)
  | None => True
  end
  /\ (forall s, truthySize info = Some s -> 0 <= s).

End Probe.

(** ** The text given to the speech synthesiser *)

Module Tts.

Import JsString.

(** The codes of the punctuation that [cleanTextForTTS] keeps: full
    stop, comma, exclamation and question marks, semicolon, colon,
    apostrophe, double quote and hyphen. *)
Definition keptPunctuation : list nat := [46; 44; 33; 63; 59; 58; 39; 34; 45]%nat.

(** A character outside the negated class of the first [replace]. *)
Definition isSpeakable (c : ascii) : bool :=
  isWordChar c || isSpace c
  || existsb (Nat.eqb (nat_of_ascii c)) keptPunctuation.

(** The second [replace]: every maximal run of white space becomes one
    blank; [inRun] tells that the previous character was white space. *)
Fixpoint collapseFrom (s : JsString.t) (inRun : bool) : JsString.t :=
  match s with
  | [] => []
  | c :: s' =>
      if isSpace c then
        if inRun then collapseFrom s' true
        else " "%char :: collapseFrom s' true
      else c :: collapseFrom s' false
  end.

Definition collapseSpaces (s : JsString.t) : JsString.t := collapseFrom s false.

Fixpoint trimStart (s : JsString.t) : JsString.t :=
  match s with
  | c :: s' => if isSpace c then trimStart s' else s
  | [] => []
  end.

Definition trimEnd (s : JsString.t) : JsString.t := rev (trimStart (rev s)).

(** [s.trim()]. *)
Definition trim (s : JsString.t) : JsString.t := trimEnd (trimStart s).

Definition cleanTextForTTS (text : JsString.t) : JsString.t :=
  trim (collapseSpaces (filter isSpeakable text)).

(** The text is empty or begins with a character that is not white
    space. *)
Definition headNotSpace (s : JsString.t) : Prop :=
  match s with
  | c :: _ => isSpace c = false
  | [] => True
  end.

(** No two neighbours are both white space. *)
Fixpoint SingleSpaced (s : JsString.t) : Prop :=
  match s with
  | a :: (b :: _) as tail =>
      (isSpace a = true -> isSpace b = false) /\ SingleSpaced tail
  | _ => True
  end.

(** The shape of a cleaned text: speakable characters only, no white
    space but single blanks, and none of them at either end. *)
Definition Cleaned (s : JsString.t) : Prop :=
  Forall (fun c => isSpeakable c = true
                   /\ (isSpace c = true -> c = " "%char)) s
  /\ SingleSpaced s
  /\ trimStart s = s
  /\ trimStart (rev s) = rev s.

End Tts.

(** ** The sprite server: frames and conversation *)

Module SpriteServer.

Import JsString.

Record Sprite := mkSprite { image : JsString.t; format : string }.

(** The loop that loads the 25 frames; [readBase64 i] is the content of
    the i-th file. *)
Definition loadSprites (readBase64 : nat -> JsString.t) : list Sprite :=
  map (fun i => mkSprite (readBase64 i) "PNG") (seq 1 25).

(** [sprites = [...sprites, ...sprites.slice().reverse()]]. *)
Definition sprites (readBase64 : nat -> JsString.t) : list Sprite :=
  loadSprites readBase64 ++ rev (loadSprites readBase64).

(** [quietFrame = sprites[0]]. *)
Definition quietFrame (readBase64 : nat -> JsString.t) : option Sprite :=
  nth_error (sprites readBase64) 0.

(** A message of the conversation; the content is [None] when the
    property is undefined. *)
Record Message := mkMessage {
  role : string;
  content : option JsString.t
}.

Definition SYSTEM_PROMPT : Message :=
  mkMessage "system"
    (Some (lit "You are Chatbot, a friendly short-talking robot assistant. Keep answers simple.")).

Definition SORRY : JsString.t := lit "Sorry, I couldn't process that.".

(** The answer of the model as [callLLM] reads it: [json.completion],
    and the content of [json.choices?.[0]?.message] when there is such a
    message. *)
Record LlmJson := mkLlmJson {
  completion : option JsString.t;
  firstMessage : option (option JsString.t)
}.

(** The request to the model: it throws (network, body that is not
    JSON), or it gives an answer. *)
Inductive LlmOutcome :=
| LlmThrows
| LlmAnswers (json : LlmJson).

Definition replyOf (json : LlmJson) : option JsString.t :=
  if Enhanced.truthyStr (completion json) then completion json
  else match firstMessage json with
       | Some messageContent => messageContent
       | None => Some SORRY
       end.

(** [callLLM(message)] on the global [conversation]: the new
    conversation and the value returned. *)
Definition callLLM (conversation : list Message) (message : JsString.t)
    (outcome : LlmOutcome) : list Message * option JsString.t :=
  let asked := conversation ++ [mkMessage "user" (Some message)] in
  match outcome with
  | LlmThrows => (asked, Some SORRY)
  | LlmAnswers json =>
      let reply := replyOf json in
      (asked ++ [mkMessage "assistant" reply], reply)
  end.

(** The handler of [/stop]: [conversation.slice(0, 1)]. *)
Definition stop (conversation : list Message) : list Message :=
  firstn 1 conversation.

(** What changes the global [conversation]: the two pushes of [callLLM]
    (the second comes after the answer of the model, so that pushes of
    calls under way may be interleaved) and the handler of [/stop]. *)
Inductive Event :=
| UserPushed (text : JsString.t)
| AssistantPushed (reply : option JsString.t)
| Stop.

Definition step (conversation : list Message) (e : Event) : list Message :=
  match e with
  | UserPushed text => conversation ++ [mkMessage "user" (Some text)]
  | AssistantPushed reply => conversation ++ [mkMessage "assistant" reply]
  | Stop => stop conversation
  end.

(** The events of one call of [callLLM]. *)
Definition eventsOf (message : JsString.t) (outcome : LlmOutcome)
  : list Event :=
  match outcome with
  | LlmThrows => [UserPushed message]
  | LlmAnswers json => [UserPushed message; AssistantPushed (replyOf json)]
  end.

(** The conversation after the events, from the initial one. *)
Definition run (events : list Event) : list Message :=
  fold_left step events [SYSTEM_PROMPT].

(** A message of the user or of the assistant. *)
Definition Spoken (m : Message) : Prop :=
  role m = "user"%string \/ role m = "assistant"%string.

End SpriteServer.

(** ** The face rig: the fade of the emotion layer *)

Module FaceRig.

(** The part of [update()] that moves [emotionBlend]. *)
Definition update (emotionBlend : Q) : Q :=
  if Enhanced.ltb emotionBlend 1 then emotionBlend + (5#100)
  else emotionBlend.

(** [emotionBlend] after [n] frames, from the 0 of the constructor. *)
Fixpoint blendAfter (n : nat) : Q :=
  match n with
  | O => 0
  | S m => update (blendAfter m)
  end.

End FaceRig.

(** The labels [charToViseme] of the first server can return. *)
Definition LETTER_SHAPES : list string := ["A"; "M"; "FV"; "L"; "E"]%string.

(** What an iteration of the scan of server_backup.js keeps true. *)
Definition Steady (text : JsString.t) (st : Backup.ScanState) : Prop :=
  NoRepeat (Backup.scan_seq st)
  /\ Forall (fun v => In v MOUTH_SHAPES) (Backup.scan_seq st)
  /\ (length (Backup.scan_seq st) <= Backup.scan_i st <= length text)%nat
  /\ (0 < Backup.scan_i st -> Backup.scan_seq st <> [])%nat.

(** ** The common shape of the two jittered loops *)

Module Jitter.

(** The loop of [buildVisemeTimeline] with the hold of the i-th viseme
    given by [hold i]. *)
Fixpoint layOut (hold : nat -> Q) (duration : Q) (i : nat) (cursor : Q)
    (visemes : list string) : list VisemeSegment :=
  match visemes with
  | [] => []
  | v :: rest =>
      let end' := JsNum.min duration (cursor + hold i) in
      mkViseme v (JsNum.toFixed3 cursor) (JsNum.toFixed3 end') None
      :: layOut hold duration (S i) end' rest
  end.

(** The hold of server_backup.js. *)
Definition backupHold (rand : nat -> Q) (avg : Q) (i : nat) : Q :=
  avg * ((9#10) + rand i * (3#10)).

(** Every segment ends where the next one starts. *)
Fixpoint Contiguous (tl : list VisemeSegment) : Prop :=
  match tl with
  | a :: (b :: _) as tail => end_ a = start b /\ Contiguous tail
  | _ => True
  end.

(** Every segment runs forward, inside [0, total]. *)
Definition WithinAudio (total : Q) (tl : list VisemeSegment) : Prop :=
  Forall (fun s => 0 <= start s /\ start s <= end_ s /\ end_ s <= total) tl.

End Jitter.

(** ** Notions for the properties of the enhanced server *)

Module EnhancedNotions.

Import Enhanced.

(** The segment the main loop pushes for a phoneme it keeps. *)
Definition segmentOf (p : PhonemeSegment) : VisemeSegment :=
  mkViseme (visemeOf (phoneme p)) (ph_start p) (ph_end p)
           (Some (JsNum.orElse (ph_confidence p) (1#2))).


(** No two neighbours that the smoother would merge. *)
Fixpoint NoMergeable (l : list PhonemeSegment) : Prop :=
  match l with
  | a :: (b :: _) as tail =>
      mergeable MERGE_THRESHOLD a b = false /\ NoMergeable tail
  | _ => True
  end.

(** The number of segments the normalizer pushes for a word. *)
Definition contribution (w : GentleWord) : nat :=
  if notAligned w then 1
  else match w_phones w with
       | Some ps => length (filter (fun p => truthyStr (g_phone p)) ps)
       | None => 1
       end.

Definition isLowerLetter (c : ascii) : bool :=
  let n := nat_of_ascii c in ((97 <=? n) && (n <=? 122))%nat.

End EnhancedNotions.

(** * Properties *)

(** ** Numbers *)

Module JsNumFacts.
Import JsNum.

Lemma min_spec (a b : Q) :
  (a <= b /\ min a b = a) \/ (b < a /\ min a b = b).
Proof.
  unfold min. destruct (Qle_bool a b) eqn:E.
  - left. split; [apply Qle_bool_iff; exact E | reflexivity].
  - right. split; [|reflexivity].
    apply Qnot_le_lt. intros H. apply Qle_bool_iff in H. congruence.
Qed.

Lemma max_spec (a b : Q) :
  (a <= b /\ max a b = b) \/ (b < a /\ max a b = a).
Proof.
  unfold max. destruct (Qle_bool a b) eqn:E.
  - left. split; [apply Qle_bool_iff; exact E | reflexivity].
  - right. split; [|reflexivity].
    apply Qnot_le_lt. intros H. apply Qle_bool_iff in H. congruence.
Qed.

(** [lra] with the injected integers taken as atoms. *)
Ltac zlra :=
  repeat match goal with
         | |- context [inject_Z ?z] =>
             let q := fresh "q" in
             generalize dependent (inject_Z z); intros q
         | H : context [inject_Z ?z] |- _ =>
             let q := fresh "q" in
             generalize dependent (inject_Z z); intros q
         end;
  intros; lra.

Lemma floor_bounds (x : Q) :
  inject_Z (Qfloor x) <= x /\ x < inject_Z (Qfloor x) + 1.
Proof.
  split; [apply Qfloor_le|].
  pose proof (Qlt_floor x) as H. rewrite inject_Z_plus in H. exact H.
Qed.

(** The rounded integer is within one half of the number. *)
Lemma round_bounds (x : Q) :
  x - (1#2) <= inject_Z (roundHalfAway x)
  /\ inject_Z (roundHalfAway x) <= x + (1#2).
Proof.
  unfold roundHalfAway. destruct (Qle_bool 0 x).
  - destruct (floor_bounds (x + (1#2))). split; zlra.
  - destruct (floor_bounds (- x + (1#2))).
    rewrite inject_Z_opp. split; zlra.
Qed.

Lemma Qle_bool_false (a b : Q) : Qle_bool a b = false -> b < a.
Proof.
  intros E. apply Qnot_le_lt. intros H. apply Qle_bool_iff in H. congruence.
Qed.

Lemma inject_Z_lt_le (a b : Z) : inject_Z a < inject_Z b + 1 -> (a <= b)%Z.
Proof.
  intros H. replace 1 with (inject_Z 1) in H by reflexivity.
  rewrite <- inject_Z_plus in H. rewrite <- Zlt_Qlt in H. lia.
Qed.

(** Moving a number up by [k] units moves its rounding up by at least [k]. *)
Lemma round_shift (x y : Q) (k : Z) :
  (0 <= k)%Z -> x + inject_Z k <= y ->
  (roundHalfAway x + k <= roundHalfAway y)%Z.
Proof.
  intros Hk H. unfold roundHalfAway.
  assert (Hk' : 0 <= inject_Z k) by (rewrite Zle_Qle in Hk; exact Hk).
  destruct (Qle_bool 0 x) eqn:Ex; destruct (Qle_bool 0 y) eqn:Ey;
    try apply Qle_bool_iff in Ex; try apply Qle_bool_iff in Ey;
    try apply Qle_bool_false in Ex; try apply Qle_bool_false in Ey.
  - destruct (floor_bounds (x + (1#2))), (floor_bounds (y + (1#2))).
    apply inject_Z_lt_le. rewrite inject_Z_plus. zlra.
  - destruct (floor_bounds (x + (1#2))), (floor_bounds (- y + (1#2))).
    apply inject_Z_lt_le. rewrite inject_Z_plus, inject_Z_opp. zlra.
  - destruct (floor_bounds (- x + (1#2))), (floor_bounds (y + (1#2))).
    apply inject_Z_lt_le. rewrite inject_Z_plus, inject_Z_opp. zlra.
  - destruct (floor_bounds (- x + (1#2))), (floor_bounds (- y + (1#2))).
    apply inject_Z_lt_le. rewrite inject_Z_plus, !inject_Z_opp. zlra.
Qed.

Lemma roundHalfAway_comp (x y : Q) : x == y -> roundHalfAway x = roundHalfAway y.
Proof.
  intros H. unfold roundHalfAway.
  rewrite (Qleb_comp 0 0 (Qeq_refl 0) x y H).
  destruct (Qle_bool 0 y).
  - apply Qfloor_comp. rewrite H. reflexivity.
  - f_equal. apply Qfloor_comp. rewrite H. reflexivity.
Qed.

(** [toFixed3] gives the same object on equal rationals. *)
Lemma toFixed3_comp (x y : Q) : x == y -> toFixed3 x = toFixed3 y.
Proof.
  intros H. unfold toFixed3.
  rewrite (roundHalfAway_comp (x * 1000) (y * 1000)); [reflexivity|].
  rewrite H. reflexivity.
Qed.

Lemma toFixed3_value (x : Q) :
  toFixed3 x == inject_Z (roundHalfAway (x * 1000)) / 1000.
Proof.
  unfold toFixed3. rewrite Qred_correct.
  unfold Qeq, Qdiv, Qmult, Qinv, inject_Z; simpl. lia.
Qed.

(** Rounding to milliseconds moves a number by at most half a millisecond. *)
Lemma toFixed3_close (x : Q) :
  x - (1#2000) <= toFixed3 x /\ toFixed3 x <= x + (1#2000).
Proof.
  rewrite toFixed3_value.
  destruct (round_bounds (x * 1000)) as [Hlo Hhi].
  split.
  - apply Qle_shift_div_l; [reflexivity|]. zlra.
  - apply Qle_shift_div_r; [reflexivity|]. zlra.
Qed.

(** A step of [k] milliseconds survives the rounding. *)
Lemma toFixed3_shift (x y : Q) (k : Z) :
  (0 <= k)%Z -> x + inject_Z k / 1000 <= y ->
  toFixed3 x + inject_Z k / 1000 <= toFixed3 y.
Proof.
  intros Hk0 H. rewrite !toFixed3_value.
  assert (Hk : (roundHalfAway (x * 1000) + k <= roundHalfAway (y * 1000))%Z).
  { apply round_shift; [exact Hk0|].
    assert (E : inject_Z k == inject_Z k / 1000 * 1000) by field.
    rewrite E. 
    clear E. set (q := inject_Z k / 1000) in *. clearbody q. lra. }
  rewrite Zle_Qle, inject_Z_plus in Hk.
  assert (E : forall a b : Q, a / 1000 + b / 1000 == (a + b) / 1000)
    by (intros; field).
  rewrite E. apply Qle_shift_div_l; [reflexivity|].
  assert (E2 : forall a : Q, a / 1000 * 1000 == a) by (intros; field).
  rewrite E2. exact Hk.
Qed.

Lemma toFixed3_mono (x y : Q) : x <= y -> toFixed3 x <= toFixed3 y.
Proof.
  intros H. pose proof (toFixed3_shift x y 0 (Z.le_refl 0)) as S.
  assert (E : inject_Z 0 / 1000 == 0) by reflexivity.
  rewrite E in S. rewrite !Qplus_0_r in S. auto.
Qed.

Lemma toFixed3_zero : toFixed3 0 = 0.
Proof. reflexivity. Qed.

(** *** binary64 *)











Lemma double_comp (x y : Q) : x == y -> double x = double y.
Proof.
  intros H. unfold double. rewrite (Qred_complete x y H). reflexivity.
Qed.


(** The doubles of some literals of the code. *)
Lemma double_literals :
  double 0 = 0 /\ double 1 = 1
  /\ double (1#10) = 3602879701896397 # 36028797018963968
  /\ double (3#100) = 1080863910568919 # 36028797018963968
  /\ double (4#100) = 5764607523034235 # 144115188075855872
  /\ double (5#100) = 3602879701896397 # 72057594037927936.
Proof. vm_compute. repeat split. Qed.

End JsNumFacts.

(** ** Strings *)

Module JsStringFacts.

Import JsString.

Lemma eqb_eq (a b : JsString.t) : eqb a b = true <-> a = b.
Proof.
  revert b; induction a as [|c a IH]; intros [|d b]; simpl;
    try (split; [discriminate | discriminate]); try tauto.
  rewrite andb_true_iff, Ascii.eqb_eq, IH.
  split; [intros [-> ->]; reflexivity | intros H; injection H; auto].
Qed.

Lemma eqb_refl (a : JsString.t) : eqb a a = true.
Proof. apply eqb_eq; reflexivity. Qed.

(** A one-character string occurs in [s] only as one of its characters. *)
Lemma includes_char (s : JsString.t) (x : ascii) :
  includes s [x] = true -> In x s.
Proof.
  induction s as [|d s IH]; simpl.
  - discriminate.
  - rewrite orb_true_iff, andb_true_iff, Ascii.eqb_eq.
    intros [[-> _] | H]; [left; reflexivity | right; auto].
Qed.

Lemma lower_keeps_non_alnum (c : ascii) :
  isAlnum c = false -> isAlnum (lowerChar c) = false.
Proof.
  destruct c as [[] [] [] [] [] [] [] []]; vm_compute;
    intro H; first [exact H | discriminate H].
Qed.

Lemma slice_at (text : JsString.t) (i : nat) (c : ascii) :
  nth_error text i = Some c ->
  exists tail, slice text i (i + 2) = c :: tail /\ charAt text i = [c].
Proof.
  intros H. unfold slice, charAt. rewrite H.
  replace (i + 2 - i)%nat with 2%nat by lia.
  revert i H; induction text as [|d text IH]; intros [|i] H; simpl in *;
    try discriminate.
  - injection H as ->. eexists; split; reflexivity.
  - apply IH in H. exact H.
Qed.

End JsStringFacts.

(** ** The digraph phonemizer of server_backup.js *)

Module BackupFacts.

Import JsString JsStringFacts Backup.

(** Every branch of [charToPhonemePair] consumes one or two characters. *)
Lemma skip_one_or_two (text : JsString.t) (i : nat) :
  snd (charToPhonemePair text i) = 1%nat
  \/ snd (charToPhonemePair text i) = 2%nat.
Proof.
  unfold charToPhonemePair.
  repeat match goal with
         | |- context [if ?b then _ else _] => destruct b
         end; simpl; auto.
Qed.

Lemma scanStep_index (text : JsString.t) (st : ScanState) :
  scan_i (scanStep text st)
  = (scan_i st + snd (charToPhonemePair text (scan_i st)))%nat.
Proof.
  unfold scanStep. destruct (charToPhonemePair text (scan_i st)); reflexivity.
Qed.

(** The index moves forward at every iteration. *)
Lemma scanStep_advances (text : JsString.t) (st : ScanState) :
  (scan_i st < scan_i (scanStep text st) <= scan_i st + 2)%nat.
Proof.
  rewrite scanStep_index.
  destruct (skip_one_or_two text (scan_i st)) as [-> | ->]; lia.
Qed.

(** As many iterations as characters are left are enough. *)
Lemma scanLoop_enough (text : JsString.t) (fuel : nat) :
  forall st, (length text - scan_i st <= fuel)%nat ->
  exists st', scanLoop fuel text st = Some st'
              /\ (length text <= scan_i st')%nat.
Proof.
  induction fuel as [|fuel IH]; intros st Hfuel; simpl.
  - destruct (Nat.leb_spec (length text) (scan_i st)).
    + eauto.
    + lia.
  - destruct (Nat.leb_spec (length text) (scan_i st)).
    + eauto.
    + apply IH. pose proof (scanStep_advances text st). lia.
Qed.

(** More fuel than needed does not change the result. *)
Lemma scanLoop_more_fuel (text : JsString.t) (fuel : nat) :
  forall st st' extra, scanLoop fuel text st = Some st' ->
  scanLoop (fuel + extra) text st = Some st'.
Proof.
  induction fuel as [|fuel IH]; intros st st' extra; simpl.
  - destruct (length text <=? scan_i st)%nat eqn:E; [|discriminate].
    intros Hst. destruct extra; simpl; rewrite E; exact Hst.
  - destruct (length text <=? scan_i st)%nat eqn:E; auto.
Qed.

(** C10.  The greedy scan of [textToVisemeSequence] terminates on every
    string: [charToPhonemePair] consumes exactly one or two characters at
    every position (also where no digraph and no single-character rule
    matches), so the index strictly increases at each iteration, and from
    any state the loop exits, with the index past the end of the string,
    within as many iterations as characters are left; the function returns
    the sequence of that final state. *)
Theorem phonemizer_scan_terminates (text : JsString.t) :
  (forall i, snd (charToPhonemePair text i) = 1%nat
             \/ snd (charToPhonemePair text i) = 2%nat)
  /\ (forall st, (scan_i st < scan_i (scanStep text st) <= scan_i st + 2)%nat)
  /\ (forall st, exists st',
         scanLoop (length text - scan_i st) text st = Some st'
         /\ (length text <= scan_i st')%nat)
  /\ (exists st', scanLoop (length text) text (mkScan 0 []) = Some st'
                  /\ textToVisemeSequence text = scan_seq st').
Proof.
  split; [apply skip_one_or_two|].
  split; [apply scanStep_advances|].
  split.
  - intros st. apply scanLoop_enough. lia.
  - destruct (scanLoop_enough text (length text) (mkScan 0 []))
      as [st' [Hst' _]]; [simpl; lia|].
    exists st'. split; [exact Hst'|].
    unfold textToVisemeSequence. rewrite Hst'. reflexivity.
Qed.

Lemma alnum_of_table (s : JsString.t) (x : ascii) :
  forallb isAlnum s = true -> includes s [x] = true -> isAlnum x = true.
Proof.
  intros Hall Hin. apply includes_char in Hin.
  rewrite forallb_forall in Hall. auto.
Qed.

(** A character that is neither a letter nor a digit falls through every
    rule of [charToPhonemePair] to the neutral phoneme. *)
Lemma non_alnum_is_neutral (text : JsString.t) (i : nat) (c : ascii) :
  nth_error text i = Some c -> isAlnum c = false ->
  charToPhonemePair text i = ("AA"%string, 1%nat).
Proof.
  intros Hc Hna.
  destruct (slice_at text i c Hc) as [tail [Hslice Hch]].
  apply lower_keeps_non_alnum in Hna.
  unfold charToPhonemePair. rewrite Hslice, Hch.
  unfold toLowerCase; simpl map.
  assert (Hpair : forall d e, eqb (lowerChar c :: map lowerChar tail) [d; e] = true
                              -> isAlnum d = true -> False).
  { intros d e H Hd. simpl in H. apply andb_true_iff in H as [H _].
    apply Ascii.eqb_eq in H. congruence. }
  assert (Hone : forall s, forallb isAlnum s = true ->
                           includes s [lowerChar c] = false).
  { intros s Hs. destruct (includes s [lowerChar c]) eqn:E; auto.
    pose proof (alnum_of_table s _ Hs E). congruence. }
  repeat match goal with
         | |- context [eqb ?p (lit ?s)] =>
             let E := fresh "E" in
             destruct (eqb p (lit s)) eqn:E;
             [exfalso; apply (Hpair _ _ E); reflexivity|]
         end.
  repeat match goal with
         | |- context [includes (lit ?s) ?ch] =>
             rewrite (Hone (lit s)) by reflexivity
         end.
  reflexivity.
Qed.

End BackupFacts.

(** ** The per-character phonemizer of the first server *)

Module HeuristicFacts.

Import JsString Heuristic.

Lemma seq_ignores_dropped (text : JsString.t) :
  forall seq, fold_left seqStep text seq
              = fold_left seqStep (filter isKept text) seq.
Proof.
  induction text as [|c text IH]; intros seq; simpl; [reflexivity|].
  destruct (isKept c) eqn:E; simpl.
  - apply IH.
  - unfold seqStep at 2. rewrite E. simpl. apply IH.
Qed.

(** C9 (amended).  The per-character phonemizer of the first server
    skips every character that is neither a letter, a digit, an
    underscore nor an apostrophe: the sequence of a text is the sequence
    of the text without these characters, so they contribute nothing and
    do not keep equal neighbours from collapsing; the apostrophe and the
    underscore are kept and map to A.  The digraph phonemizer
    of server_backup.js skips no character: a character that is neither a
    letter nor a digit is consumed alone and yields the neutral phoneme
    AA. *)
Theorem phonemizer_skips (text : JsString.t) :
  textToVisemeSequence text = textToVisemeSequence (filter isKept text)
  /\ (forall c, isKept c = isAlnum c
                          || (nat_of_ascii c =? 95)%nat
                          || (nat_of_ascii c =? 39)%nat)
  /\ (charToViseme "'"%char = "A"%string
      /\ charToViseme "_"%char = "A"%string)
  /\ (forall i c, nth_error text i = Some c -> isAlnum c = false ->
        Backup.charToPhonemePair text i = ("AA"%string, 1%nat)).
Proof.
  split; [apply seq_ignores_dropped|].
  split; [intros c; reflexivity|].
  split; [split; reflexivity|].
  apply BackupFacts.non_alnum_is_neutral.
Qed.

Lemma phonemizer_skips_witness :
  nth_error (lit "m, m") 1 = Some ","%char
  /\ isAlnum ","%char = false
  /\ Backup.charToPhonemePair (lit "m, m") 1 = ("AA"%string, 1%nat).
Proof.
  split; [reflexivity|]. split; [reflexivity|].
  exact (proj2 (proj2 (proj2 (phonemizer_skips (lit "m, m"))))
           1%nat ","%char eq_refl eq_refl).
Defined.

(** C9, as stated, fails: in server_backup.js the blank between two [m]
    yields a viseme of its own and keeps them apart, and in the first
    server the apostrophe does. *)
Lemma phonemizer_skips_counterexample :
  Backup.textToVisemeSequence (lit "m m") = ["M"; "A"; "M"]%string
  /\ Backup.textToVisemeSequence (filter isAlnum (lit "m m")) = ["M"]%string
  /\ textToVisemeSequence (lit "b'b") = ["M"; "A"; "M"]%string
  /\ textToVisemeSequence (filter isAlnum (lit "b'b")) = ["M"]%string.
Proof.
  repeat split; vm_compute; reflexivity.
Qed.

End HeuristicFacts.

(** ** Timelines *)

Module TimelineFacts.

Lemma setLastEnd_cons2 (s s' : VisemeSegment) (tl : list VisemeSegment) (e : Q) :
  setLastEnd (s :: s' :: tl) e = s :: setLastEnd (s' :: tl) e.
Proof. reflexivity. Qed.

Lemma setLastEnd_length (tl : list VisemeSegment) (e : Q) :
  length (setLastEnd tl e) = length tl.
Proof.
  induction tl as [|s [|s' tl] IH]; try reflexivity.
  rewrite setLastEnd_cons2. simpl length in *. rewrite IH. reflexivity.
Qed.


(** Forcing the last end rewrites the last segment only. *)
Lemma setLastEnd_snoc (tl : list VisemeSegment) (e : Q) :
  tl <> [] ->
  exists init s,
    tl = init ++ [s]
    /\ setLastEnd tl e
       = init ++ [mkViseme (viseme s) (start s) e (confidence s)].
Proof.
  induction tl as [|s [|s' tl] IH]; intros Hne.
  - congruence.
  - exists [], s. auto.
  - destruct (IH ltac:(discriminate)) as [init [z [E1 E2]]].
    exists (s :: init), z. rewrite setLastEnd_cons2, E2, E1. auto.
Qed.

Lemma lastEnd_snoc (tl : list VisemeSegment) (s : VisemeSegment) :
  lastEnd (tl ++ [s]) = Some (end_ s).
Proof. unfold lastEnd. rewrite rev_unit. reflexivity. Qed.

Lemma setLastEnd_lastEnd (tl : list VisemeSegment) (e : Q) :
  tl <> [] -> lastEnd (setLastEnd tl e) = Some e.
Proof.
  intros Hne. destruct (setLastEnd_snoc tl e Hne) as [init [s [_ ->]]].
  apply lastEnd_snoc.
Qed.

Lemma setLastEnd_firstStart (tl : list VisemeSegment) (e : Q) :
  firstStart (setLastEnd tl e) = firstStart tl.
Proof. destruct tl as [|s [|s' tl]]; reflexivity. Qed.

Lemma firstStart_app (tl more : list VisemeSegment) (x : Q) :
  firstStart tl = Some x -> firstStart (tl ++ more) = Some x.
Proof. destruct tl; [discriminate | auto]. Qed.

End TimelineFacts.

(** ** The jittered timeline of server_backup.js *)

Module BackupTimelineFacts.

Import Backup TimelineFacts JsNumFacts.

(** The segments are laid end to start, so their durations telescope. *)
Lemma loop_telescopes (rand : nat -> Q) (avg duration e : Q)
    (visemes : list string) :
  visemes <> [] ->
  forall i cursor,
    totalDuration (setLastEnd (timelineLoop rand avg duration i cursor visemes) e)
    == e - JsNum.toFixed3 cursor.
Proof.
  induction visemes as [|v [|v' rest] IH]; intros Hne i cursor.
  - congruence.
  - simpl. lra.
  - change (timelineLoop rand avg duration i cursor (v :: v' :: rest))
      with (mkViseme v (JsNum.toFixed3 cursor)
              (JsNum.toFixed3
                 (JsNum.min duration
                    (cursor + avg * ((9#10) + rand i * (3#10))))) None
            :: timelineLoop rand avg duration (S i)
                 (JsNum.min duration
                    (cursor + avg * ((9#10) + rand i * (3#10))))
                 (v' :: rest)).
    set (c' := JsNum.min duration (cursor + avg * ((9#10) + rand i * (3#10)))).
    assert (IH' := IH ltac:(discriminate) (S i) c').
    destruct (timelineLoop rand avg duration (S i) c' (v' :: rest))
      as [|s' tl'] eqn:E; [discriminate E|].
    rewrite setLastEnd_cons2.
    unfold totalDuration in *. simpl fold_right at 1. simpl end_. simpl start.
    rewrite IH'. lra.
Qed.

End BackupTimelineFacts.

(** ** The timeline of the first server and its 40 ms floor *)

Module HeuristicTimelineFacts.

Import Heuristic TimelineFacts JsNumFacts.

Lemma holdOf_floor (rand : nat -> Q) (base : Q) (i : nat) :
  (4#100) <= holdOf rand base i.
Proof.
  unfold holdOf.
  destruct (JsNumFacts.max_spec (4#100) (base * ((85#100) + rand i * (3#10))))
    as [[H ->] | [H ->]]; lra.
Qed.

(** The i-th segment of the loop runs between the roundings of two
    consecutive cursors. *)
Lemma loop_nth (rand : nat -> Q) (base d : Q) (visemeSeq : list string) :
  forall j k seg,
    nth_error (timelineLoop rand base d j (cursorAt rand base d j) visemeSeq) k
    = Some seg ->
    start seg = JsNum.toFixed3 (cursorAt rand base d (j + k))
    /\ end_ seg = JsNum.toFixed3 (cursorAt rand base d (S (j + k))).
Proof.
  induction visemeSeq as [|v rest IH]; intros j k seg H.
  - destruct k; discriminate.
  - destruct k as [|k]; simpl in H.
    + injection H as <-. rewrite Nat.add_0_r. simpl. auto.
    + replace (j + S k)%nat with (S j + k)%nat by lia.
      apply IH. exact H.
Qed.

Lemma loop_length (rand : nat -> Q) (base d : Q) (visemeSeq : list string) :
  forall j c, length (timelineLoop rand base d j c visemeSeq)
              = length visemeSeq.
Proof.
  induction visemeSeq as [|v rest IH]; intros j c; simpl; auto.
Qed.

(** Here too the segments are laid end to start. *)
Lemma floored_loop_telescopes (rand : nat -> Q) (base d e : Q)
    (visemeSeq : list string) :
  visemeSeq <> [] ->
  forall i cursor,
    totalDuration (setLastEnd (timelineLoop rand base d i cursor visemeSeq) e)
    == e - JsNum.toFixed3 cursor.
Proof.
  induction visemeSeq as [|v [|v' rest] IH]; intros Hne i cursor.
  - congruence.
  - simpl. lra.
  - set (c' := JsNum.min d (cursor + holdOf rand base i)).
    change (timelineLoop rand base d i cursor (v :: v' :: rest))
      with (mkViseme v (JsNum.toFixed3 cursor) (JsNum.toFixed3 c') None
            :: timelineLoop rand base d (S i) c' (v' :: rest)).
    assert (IH' := IH ltac:(discriminate) (S i) c').
    destruct (timelineLoop rand base d (S i) c' (v' :: rest))
      as [|s' tl'] eqn:E; [discriminate E|].
    rewrite setLastEnd_cons2.
    unfold totalDuration in *. simpl fold_right at 1. simpl end_. simpl start.
    rewrite IH'. lra.
Qed.

(** *** The floor in binary64 *)








End HeuristicTimelineFacts.

(** ** The two jittered builders cover the audio *)

Module JitteredBuilderFacts.

Import TimelineFacts JsNumFacts.

(** C6 (amended).  For every non-empty viseme sequence, the durations of
    the segments of the jittered builder [buildVisemeTimeline] (of
    server_backup.js, and of the first server as well) sum to the audio
    duration rounded to milliseconds, hence to the audio duration within
    half a millisecond, whatever the random draws are.  (The word-based
    builder of the enhanced server gives no such sum.) *)
Theorem jittered_timeline_covers_duration (rand : nat -> Q)
    (visemes : list string) (duration : Q) :
  visemes <> [] ->
  (totalDuration (Backup.buildVisemeTimeline rand visemes duration)
   == JsNum.toFixed3 duration
   /\ totalDuration (Heuristic.buildVisemeTimeline rand visemes duration)
      == JsNum.toFixed3 duration)
  /\ duration - (1#2000)
     <= totalDuration (Backup.buildVisemeTimeline rand visemes duration)
  /\ totalDuration (Backup.buildVisemeTimeline rand visemes duration)
     <= duration + (1#2000).
Proof.
  intros Hne.
  assert (E : totalDuration (Backup.buildVisemeTimeline rand visemes duration)
              == JsNum.toFixed3 duration).
  { unfold Backup.buildVisemeTimeline.
    destruct visemes as [|v rest]; [congruence|].
    rewrite BackupTimelineFacts.loop_telescopes by discriminate.
    rewrite toFixed3_zero. lra. }
  assert (E' : totalDuration
                 (Heuristic.buildVisemeTimeline rand visemes duration)
               == JsNum.toFixed3 duration).
  { unfold Heuristic.buildVisemeTimeline.
    destruct visemes as [|v rest]; [congruence|].
    rewrite HeuristicTimelineFacts.floored_loop_telescopes by discriminate.
    rewrite toFixed3_zero. lra. }
  destruct (toFixed3_close duration) as [Hlo Hhi].
  split; [split; [exact E | exact E']|].
  rewrite E. split; [exact Hlo | exact Hhi].
Qed.

Lemma jittered_timeline_covers_duration_witness :
  ["A"; "M"; "E"]%string <> []
  /\ totalDuration
       (Backup.buildVisemeTimeline (constRand (1#2))
          ["A"; "M"; "E"]%string 1) == 1.
Proof.
  split; [discriminate|].
  destruct (jittered_timeline_covers_duration
              (constRand (1#2)) ["A"; "M"; "E"]%string 1) as [[E _] _];
    [discriminate | exact E].
Defined.

End JitteredBuilderFacts.

(** ** The smoother *)

Module SmootherFacts.

Import Enhanced JsNumFacts.

Section Threshold.

Variable thr : Q.

(** The segments pushed so far do not influence the rest of the loop. *)
Lemma fold_smooth_acc (rest : list PhonemeSegment) :
  forall acc cur,
    fold_left (smoothStep thr) rest (acc, cur)
    = (acc ++ fst (fold_left (smoothStep thr) rest ([], cur)),
       snd (fold_left (smoothStep thr) rest ([], cur))).
Proof.
  induction rest as [|next rest IH]; intros acc cur; simpl.
  - rewrite app_nil_r. reflexivity.
  - destruct (mergeable thr cur next).
    + apply IH.
    + rewrite IH. rewrite (IH [cur] next). simpl.
      rewrite <- app_assoc. reflexivity.
Qed.

(** The loop, read from the front of the list. *)
Lemma smoothWith_cons2 (a b : PhonemeSegment) (rest : list PhonemeSegment) :
  smoothWith thr (a :: b :: rest)
  = if mergeable thr a b
    then smoothWith thr (merged a b :: rest)
    else a :: smoothWith thr (b :: rest).
Proof.
  unfold smoothWith. simpl fold_left.
  destruct (mergeable thr a b).
  - reflexivity.
  - rewrite fold_smooth_acc.
    destruct (fold_left (smoothStep thr) rest ([], b)) as [sm cur].
    reflexivity.
Qed.

Lemma smoothWith_one (a : PhonemeSegment) : smoothWith thr [a] = [a].
Proof. reflexivity. Qed.

(** Merging changes neither the label nor the start of the head. *)
Lemma smoothWith_head (l : list PhonemeSegment) :
  forall a, exists a' l',
    smoothWith thr (a :: l) = a' :: l'
    /\ phoneme a' = phoneme a /\ ph_start a' = ph_start a.
Proof.
  induction l as [|b l IH]; intros a.
  - exists a, []. auto.
  - rewrite smoothWith_cons2. destruct (mergeable thr a b).
    + destruct (IH (merged a b)) as [a' [l' [E [Hp Hs]]]].
      exists a', l'. auto.
    + exists a, (smoothWith thr (b :: l)). auto.
Qed.

(** The test looks at the label and the start of the next segment only. *)
Lemma mergeable_next (a b b' : PhonemeSegment) :
  phoneme b' = phoneme b -> ph_start b' = ph_start b ->
  mergeable thr a b' = mergeable thr a b.
Proof. intros Hp Hs. unfold mergeable, gap. rewrite Hp, Hs. reflexivity. Qed.

Lemma smoothWith_idem_bounded (n : nat) :
  forall l, (length l <= n)%nat ->
  smoothWith thr (smoothWith thr l) = smoothWith thr l.
Proof.
  induction n as [|n IH]; intros l Hlen.
  - destruct l; [reflexivity | simpl in Hlen; lia].
  - destruct l as [|a [|b rest]]; try reflexivity.
    rewrite smoothWith_cons2.
    destruct (mergeable thr a b) eqn:E.
    + apply IH. simpl in *. lia.
    + destruct (smoothWith_head rest b) as [b' [l' [Eb [Hp Hs]]]].
      assert (Hrec : smoothWith thr (smoothWith thr (b :: rest))
                     = smoothWith thr (b :: rest))
        by (apply IH; simpl in *; lia).
      rewrite Eb in *.
      rewrite smoothWith_cons2, (mergeable_next a b b' Hp Hs), E.
      rewrite Hrec. reflexivity.
Qed.

End Threshold.





(** C8.  The smoother is idempotent: smoothing a smoothed timeline
    returns it unchanged. *)
Theorem smoother_idempotent (xs : list PhonemeSegment) :
  smoothPhonemeTimeline (smoothPhonemeTimeline xs) = smoothPhonemeTimeline xs.
Proof.
  unfold smoothPhonemeTimeline.
  apply (smoothWith_idem_bounded MERGE_THRESHOLD (length xs)). lia.
Qed.







End SmootherFacts.

(** ** The normalizer of the Gentle response *)

Module NormalizerFacts.

Import Enhanced.






End NormalizerFacts.

(** ** The forced-alignment client *)

Module ClientFacts.

Import Enhanced.








(** C3, as stated, fails on the bound: a response that arrives after
    120 ms and whose body never ends leaves the call pending for ever,
    the timer having been cleared at 120 ms. *)
Lemma aligner_hangs_counterexample :
  awaitForcedAligner
    (mkCall (mkWorld true (Some 120%N) (FetchResponds true (BodyWords [])))
            None)
  = Hangs
  /\ forall ms v,
       awaitForcedAligner
         (mkCall (mkWorld true (Some 120%N)
                    (FetchResponds true (BodyWords []))) None)
       <> Resumes ms v.
Proof.
  split; [reflexivity | discriminate].
Qed.

End ClientFacts.

(** ** The word-based fallback *)

Module FallbackFacts.

Import JsString Enhanced TimelineFacts JsNumFacts.

Lemma lower_keeps_non_space (c : ascii) :
  isSpace c = false -> isSpace (lowerChar c) = false.
Proof.
  destruct c as [[] [] [] [] [] [] [] []]; vm_compute;
    intro H; first [exact H | discriminate H].
Qed.

(** A piece that has begun stays the first piece, and is not empty. *)
Lemma splitFrom_first (s : JsString.t) :
  forall cur, cur <> [] ->
  exists w ws, splitFrom s cur false = w :: ws /\ w <> [].
Proof.
  induction s as [|c s IH]; intros cur Hcur; simpl.
  - eauto.
  - destruct (isSpace c); [eauto|].
    apply IH. destruct cur; discriminate.
Qed.

Lemma charStep_keeps_first (wordEnd charDuration : Q)
    (st : list VisemeSegment * Q) (c : ascii) (x : Q) :
  firstStart (fst st) = Some x ->
  firstStart (fst (charStep wordEnd charDuration st c)) = Some x.
Proof.
  destruct st as [vs t]. unfold charStep. simpl.
  destruct (lastVisemeDiffers vs (charToVisemeEnhanced c)); simpl; auto.
  apply firstStart_app.
Qed.

Lemma chars_keep_first (wordEnd charDuration : Q) (word : JsString.t) (x : Q) :
  forall st, firstStart (fst st) = Some x ->
  firstStart (fst (fold_left (charStep wordEnd charDuration) word st)) = Some x.
Proof.
  induction word as [|c word IH]; intros st H; simpl; auto.
  apply IH. apply charStep_keeps_first. exact H.
Qed.

Lemma wordStep_keeps_first (wordDuration : Q) (lastWord word : JsString.t)
    (st : list VisemeSegment * Q) (x : Q) :
  firstStart (fst st) = Some x ->
  firstStart (fst (wordStep wordDuration lastWord st word)) = Some x.
Proof.
  intros H. destruct st as [vs t]. unfold wordStep.
  match goal with
  | |- context [fold_left ?f word ?st0] =>
      pose proof (chars_keep_first (t + wordDuration)
                    (wordDuration
                     / inject_Z (Z.of_nat (Nat.max (length word) 1)))
                    word x st0 H) as K;
      destruct (fold_left f word st0) as [vs' t']
  end.
  simpl in K.
  destruct (negb (JsString.eqb word lastWord)); simpl; auto.
  apply firstStart_app. exact K.
Qed.

Lemma words_keep_first (wordDuration : Q) (lastWord : JsString.t)
    (words : list JsString.t) (x : Q) :
  forall st, firstStart (fst st) = Some x ->
  firstStart (fst (fold_left (wordStep wordDuration lastWord) words st))
  = Some x.
Proof.
  induction words as [|w words IH]; intros st H; simpl; auto.
  apply IH. apply wordStep_keeps_first. exact H.
Qed.

(** The first character of a first word opens the timeline at 0. *)
Lemma first_word_opens_at_zero (wordDuration : Q) (lastWord : JsString.t)
    (c : ascii) (word : JsString.t) :
  firstStart (fst (wordStep wordDuration lastWord ([], 0) (c :: word)))
  = Some 0.
Proof.
  unfold wordStep.
  match goal with
  | |- context [fold_left ?f (c :: word) ?st0] =>
      assert (K : firstStart (fst (fold_left f (c :: word) st0)) = Some 0)
        by (simpl fold_left; apply chars_keep_first; reflexivity);
      destruct (fold_left f (c :: word) st0) as [vs' t']
  end.
  simpl in K.
  destruct (negb (JsString.eqb (c :: word) lastWord)); simpl; auto.
  apply firstStart_app. exact K.
Qed.

(** A reply that begins with a character other than white space gets a
    timeline that starts at 0. *)
Lemma fallback_starts_at_zero (c : ascii) (text : JsString.t) (duration : Q) :
  isSpace c = false ->
  firstStart (generateFallbackVisemes (c :: text) duration) = Some 0.
Proof.
  intros Hc. apply lower_keeps_non_space in Hc.
  unfold generateFallbackVisemes. rewrite setLastEnd_firstStart.
  unfold splitSpaces, toLowerCase. simpl map. simpl splitFrom. rewrite Hc.
  destruct (splitFrom_first (map lowerChar text) [lowerChar c]
              ltac:(discriminate)) as [w [ws [E Hw]]].
  rewrite E. destruct w as [|c1 w]; [congruence|].
  simpl fold_left. apply words_keep_first. apply first_word_opens_at_zero.
Qed.

(** A non-empty fallback timeline ends at the rounded audio duration. *)
Lemma fallback_ends_at_duration (text : JsString.t) (duration : Q) :
  generateFallbackVisemes text duration <> [] ->
  lastEnd (generateFallbackVisemes text duration)
  = Some (JsNum.toFixed3 duration).
Proof.
  unfold generateFallbackVisemes. intros Hne.
  apply setLastEnd_lastEnd. intros E. rewrite E in Hne. apply Hne. reflexivity.
Qed.

(** C6, as stated, fails on the word-based builder: a repeated letter is
    collapsed without its time being given to a neighbour, so for the
    reply [aab] on one second of audio the two segments last 0.333 s
    each and their sum misses the audio duration by a third. *)
Lemma word_fallback_sum_counterexample :
  generateFallbackVisemes (lit "aab") 1
  = [mkViseme "A" 0 (333#1000) None; mkViseme "M" (667#1000) 1 None]
  /\ totalDuration (generateFallbackVisemes (lit "aab") 1) == (666#1000)
  /\ ~ 1 - (1#1000) <= totalDuration (generateFallbackVisemes (lit "aab") 1).
Proof.
  split; [vm_compute; reflexivity|].
  split; [vm_compute; reflexivity|].
  vm_compute. intros H. apply H. reflexivity.
Qed.

End FallbackFacts.

(** ** The aligned path *)

Module AlignedFacts.

Import Enhanced TimelineFacts SmootherFacts JsNumFacts.

Lemma last_end_default (l : list PhonemeSegment) (x y : PhonemeSegment) :
  ph_end x = ph_end y -> ph_end (last l x) = ph_end (last l y).
Proof.
  induction l as [|a [|b l] IH]; intros H; auto.
Qed.

(** The last segment of [a :: l] is the last of [l], or [a]. *)
Lemma last_cons (l : list PhonemeSegment) (a d : PhonemeSegment) :
  last (a :: l) d = last l a.
Proof.
  revert a d. induction l as [|b l IH]; intros a d; [reflexivity|].
  change (last (b :: l) d = last (b :: l) a).
  rewrite !IH. reflexivity.
Qed.

(** Smoothing keeps the start of the first segment and the end of the
    last one. *)
Lemma smoothWith_ends (thr : Q) (l : list PhonemeSegment) :
  forall a, exists a' l',
    smoothWith thr (a :: l) = a' :: l'
    /\ ph_start a' = ph_start a
    /\ ph_end (last l' a') = ph_end (last l a).
Proof.
  induction l as [|b l IH]; intros a.
  - exists a, []. auto.
  - rewrite smoothWith_cons2. destruct (mergeable thr a b).
    + destruct (IH (merged a b)) as [a' [l' [E [Hs He]]]].
      exists a', l'. repeat split; auto.
      rewrite He, last_cons. apply last_end_default. reflexivity.
    + destruct (IH b) as [b' [l' [E [Hs He]]]].
      exists a, (b' :: l'). rewrite E. repeat split; auto.
      rewrite !last_cons. exact He.
Qed.

Lemma ltb_irrefl (x : Q) : ltb x x = false.
Proof.
  unfold ltb. assert (H : Qle_bool x x = true) by (apply Qle_bool_iff; lra).
  rewrite H. reflexivity.
Qed.

(** The first and the last phoneme are never dropped. *)
Lemma visemeAt_first (q : PhonemeSegment) (qs : list PhonemeSegment) :
  visemeAt (q :: qs) 0
  = [mkViseme (visemeOf (phoneme q)) (ph_start q) (ph_end q)
       (Some (JsNum.orElse (ph_confidence q) (1#2)))].
Proof.
  unfold visemeAt. simpl nth_error. cbv zeta.
  rewrite Nat.ltb_irrefl, andb_false_r. reflexivity.
Qed.

Lemma visemeAt_last (init : list PhonemeSegment) (z : PhonemeSegment) :
  visemeAt (init ++ [z]) (length init)
  = [mkViseme (visemeOf (phoneme z)) (ph_start z) (ph_end z)
       (Some (JsNum.orElse (ph_confidence z) (1#2)))].
Proof.
  unfold visemeAt.
  rewrite nth_error_app2, Nat.sub_diag by lia. simpl nth_error. cbv zeta.
  rewrite length_app. simpl length.
  replace (length init + 1 - 1)%nat with (length init) by lia.
  rewrite Nat.ltb_irrefl, andb_false_r. reflexivity.
Qed.

(** The shape of the converted timeline of a non-empty phoneme list. *)
Lemma converted_shape (init : list PhonemeSegment) (z : PhonemeSegment) :
  exists front,
    phonemesToVisemesEnhanced (init ++ [z])
    = front ++ [mkViseme (visemeOf (phoneme z)) (ph_start z) (ph_end z)
                  (Some (JsNum.orElse (ph_confidence z) (1#2)))].
Proof.
  unfold phonemesToVisemesEnhanced. cbv zeta.
  assert (Hbody :
            flat_map (visemeAt (init ++ [z]))
                     (seq 0 (length (init ++ [z])))
            = flat_map (visemeAt (init ++ [z])) (seq 0 (length init))
              ++ [mkViseme (visemeOf (phoneme z)) (ph_start z) (ph_end z)
                    (Some (JsNum.orElse (ph_confidence z) (1#2)))]).
  { rewrite length_app. simpl length. rewrite seq_app, flat_map_app.
    simpl seq. simpl flat_map. rewrite app_nil_r, visemeAt_last.
    reflexivity. }
  rewrite Hbody, app_assoc, !rev_unit. simpl end_. rewrite ltb_irrefl.
  eexists. reflexivity.
Qed.

(** The converted timeline ends where the last phoneme ends. *)
Lemma converted_last (q : PhonemeSegment) (qs : list PhonemeSegment) :
  lastEnd (phonemesToVisemesEnhanced (q :: qs)) = Some (ph_end (last qs q)).
Proof.
  rewrite (app_removelast_last q (l := q :: qs)) by discriminate.
  destruct (converted_shape (removelast (q :: qs)) (last (q :: qs) q))
    as [front ->].
  rewrite lastEnd_snoc. cbn [end_]. rewrite last_cons. reflexivity.
Qed.

(** The converted timeline starts at 0 when the first phoneme does not
    start before 0: at the phoneme itself, or at the rest put before it. *)
Lemma converted_first (q : PhonemeSegment) (qs : list PhonemeSegment) :
  exists s, firstStart (phonemesToVisemesEnhanced (q :: qs)) = Some s
            /\ (0 <= ph_start q -> s == 0).
Proof.
  unfold phonemesToVisemesEnhanced. cbv zeta.
  match goal with
  | |- context [match rev ?v with _ => _ end] => set (visemes := v)
  end.
  assert (Hv : exists s, firstStart visemes = Some s
                         /\ (0 <= ph_start q -> s == 0)).
  { subst visemes. simpl length. simpl seq. simpl flat_map.
    rewrite visemeAt_first.
    destruct (ltb 0 (ph_start q)) eqn:E.
    - exists 0. split; [reflexivity | intros _; reflexivity].
    - exists (ph_start q). split; [reflexivity|].
      intros H0. unfold ltb in E. apply negb_false_iff in E.
      apply Qle_bool_iff in E. lra. }
  destruct Hv as [s [Hs Hz]]. exists s. split; [|exact Hz].
  destruct (rev visemes) as [|lastViseme ?]; [exact Hs|].
  destruct (rev (q :: qs)) as [|lastPhone ?]; [exact Hs|].
  destruct (ltb (end_ lastViseme) (ph_end lastPhone)); [|exact Hs].
  apply firstStart_app. exact Hs.
Qed.

End AlignedFacts.

(** ** The chat turn *)

Module ChatFacts.

Import JsString Enhanced TimelineFacts JsNumFacts.
Import FallbackFacts AlignedFacts SmootherFacts.

(** The two paths of the handler, told apart by the source tag. *)
Lemma chatTurn_paths (audio : option Q) (world : AlignerWorld)
    (reply : JsString.t) :
  (snd (chatTurn audio world reply) = "fallback"%string
   /\ fst (chatTurn audio world reply)
      = match generateFallbackVisemes reply (durationOf audio) with
        | [] => [restSegment 0 (JsNum.max (durationOf audio) (1#10)) None]
        | _ :: _ => generateFallbackVisemes reply (durationOf audio)
        end)
  \/ (exists p ps,
         audio <> None
         /\ runForcedAligner world = Some (p :: ps)
         /\ snd (chatTurn audio world reply) = "gentle"%string
         /\ fst (chatTurn audio world reply)
            = phonemesToVisemesEnhanced (smoothPhonemeTimeline (p :: ps))).
Proof.
  unfold chatTurn. destruct audio as [d|]; simpl durationOf.
  - destruct (runForcedAligner world) as [[|p ps]|] eqn:E.
    + left. simpl. split; reflexivity.
    + right. exists p, ps. split; [discriminate|].
      split; [reflexivity|]. split; [reflexivity|].
      assert (Hne : exists v tl',
                 phonemesToVisemesEnhanced (smoothPhonemeTimeline (p :: ps))
                 = v :: tl').
      { destruct (smoothWith_ends MERGE_THRESHOLD ps p) as [p' [l' [Es _]]].
        unfold smoothPhonemeTimeline. rewrite Es.
        destruct (converted_first p' l') as [s [Hs _]].
        destruct (phonemesToVisemesEnhanced (p' :: l')) as [|v tl'];
          [discriminate Hs | eauto]. }
      destruct Hne as [v [tl' Hne]]. rewrite Hne. reflexivity.
    + left. simpl. split; reflexivity.
  - left. simpl. split; reflexivity.
Qed.



(** C2 (amended).  On the fallback path the timeline starts at 0.0
    whenever the reply does not begin with white space, and, whenever the
    word-based builder produced a segment, its last end is forced to the
    audio duration rounded to milliseconds (within half a millisecond of
    the duration).  On the aligned path the timeline ends at the end of
    the last aligned phoneme (it is not clamped to the audio duration),
    and it starts at 0.0 whenever the first phoneme does not start
    before 0. *)
Theorem timeline_ends (audio : option Q) (world : AlignerWorld)
    (reply : JsString.t) :
  (snd (chatTurn audio world reply) = "fallback"%string ->
     (beginsWithSpace reply = false ->
        firstStart (fst (chatTurn audio world reply)) = Some 0)
     /\ (generateFallbackVisemes reply (durationOf audio) <> [] ->
          lastEnd (fst (chatTurn audio world reply))
          = Some (JsNum.toFixed3 (durationOf audio))
          /\ durationOf audio - (1#2000) <= JsNum.toFixed3 (durationOf audio)
          /\ JsNum.toFixed3 (durationOf audio)
             <= durationOf audio + (1#2000)))
  /\ (snd (chatTurn audio world reply) = "gentle"%string ->
       exists p ps,
         runForcedAligner world = Some (p :: ps)
         /\ lastEnd (fst (chatTurn audio world reply))
            = Some (ph_end (last ps p))
         /\ (0 <= ph_start p ->
             exists s, firstStart (fst (chatTurn audio world reply)) = Some s
                       /\ s == 0)).
Proof.
  destruct (chatTurn_paths audio world reply)
    as [[Hsrc Htl] | [p [ps [_ [Hrun [Hsrc Htl]]]]]];
    rewrite Hsrc, Htl; (split; [|intros H; try discriminate H]).
  - intros _. split.
    + intros Hsp. destruct reply as [|c reply].
      * reflexivity.
      * pose proof (fallback_starts_at_zero c reply (durationOf audio) Hsp)
          as H0.
        destruct (generateFallbackVisemes (c :: reply) (durationOf audio));
          [discriminate H0 | exact H0].
    + intros Hne.
      pose proof (fallback_ends_at_duration reply (durationOf audio) Hne)
        as Hend.
      destruct (toFixed3_close (durationOf audio)) as [Hlo Hhi].
      destruct (generateFallbackVisemes reply (durationOf audio));
        [congruence | auto].
  - intros H. discriminate H.
  - exists p, ps. split; [exact Hrun|].
    destruct (smoothWith_ends MERGE_THRESHOLD ps p) as [p' [l' [Es [Hs He]]]].
    unfold smoothPhonemeTimeline. rewrite Es. split.
    + rewrite converted_last, He. reflexivity.
    + intros H0. rewrite <- Hs in H0.
      destruct (converted_first p' l') as [s [Hfs Hz]]. eauto.
Qed.

Lemma timeline_ends_witness :
  snd (chatTurn (Some 1) (mkWorld false None FetchRejects) (lit "hello"))
  = "fallback"%string
  /\ firstStart
       (fst (chatTurn (Some 1) (mkWorld false None FetchRejects)
               (lit "hello"))) = Some 0
  /\ lastEnd
       (fst (chatTurn (Some 1) (mkWorld false None FetchRejects)
               (lit "hello"))) = Some 1.
Proof.
  split; [reflexivity|].
  destruct (proj1 (timeline_ends (Some 1) (mkWorld false None FetchRejects)
                     (lit "hello")) eq_refl) as [Hfirst Hlast].
  split.
  - exact (Hfirst eq_refl).
  - exact (proj1 (Hlast ltac:(vm_compute; discriminate))).
Defined.

(** C2, as stated, fails on the aligned path, which never looks at the
    audio duration: one unaligned word on 0.5 s of audio gives a
    timeline that ends at 0.1.  On the fallback path the end is the
    rounded duration (0.333 for a third of a second), and a reply
    wrapped in white space starts late (at 0.3 for 0.9 s of audio). *)
Lemma timeline_ends_counterexample :
  chatTurn (Some (1#2))
    (mkWorld true (Some 120%N)
       (FetchResponds true (BodyWords [notFoundWord (lit "hi")])))
    (lit "hi")
  = ([mkViseme "rest" 0 (1#10) (Some (1#2))], "gentle"%string)
  /\ ~ (1#10) == (1#2)
  /\ lastEnd (fst (chatTurn (Some (1#3)) (mkWorld false None FetchRejects)
                     (lit "a"))) = Some (333#1000)
  /\ ~ (333#1000) == (1#3)
  /\ firstStart (fst (chatTurn (Some (9#10))
                        (mkWorld false None FetchRejects) (lit " a ")))
     = Some (3#10)
  /\ ~ (3#10) - 0 <= (1#1000).
Proof.
  split; [vm_compute; reflexivity|].
  split; [discriminate|].
  split; [vm_compute; reflexivity|].
  split; [discriminate|].
  split; [vm_compute; reflexivity|].
  vm_compute. intros H. apply H. reflexivity.
Qed.

End ChatFacts.

(** * Further properties of the servers *)

(** ** Sequences without repetition *)

Module SequenceFacts.

Lemma endsOtherThan_cons (a b : string) (t : list string) (v : string) :
  endsOtherThan (a :: b :: t) v = endsOtherThan (b :: t) v.
Proof.
  unfold endsOtherThan. simpl rev.
  destruct (rev t) as [|x xs]; reflexivity.
Qed.

Lemma endsOtherThan_nonempty (l : list string) (v : string) :
  endsOtherThan l v = false -> l <> [].
Proof. intros H E. subst l. discriminate H. Qed.

(** Pushing a label that differs from the last one keeps the list free
    of repetitions. *)
Lemma NoRepeat_snoc (l : list string) (v : string) :
  NoRepeat l -> endsOtherThan l v = true -> NoRepeat (l ++ [v]).
Proof.
  induction l as [|a [|b t] IH]; intros Hl Hv.
  - exact I.
  - unfold endsOtherThan in Hv. simpl in Hv.
    apply negb_true_iff, String.eqb_neq in Hv. simpl. auto.
  - rewrite endsOtherThan_cons in Hv. destruct Hl as [Hab Hl].
    change (a <> b /\ NoRepeat ((b :: t) ++ [v])). auto.
Qed.

Lemma RepeatsOnly_snoc (r : string) (l : list string) (v : string) :
  RepeatsOnly r l -> (endsOtherThan l v = true \/ v = r) ->
  RepeatsOnly r (l ++ [v]).
Proof.
  induction l as [|a [|b t] IH]; intros Hl Hv.
  - exact I.
  - simpl. split; [|exact I]. intros E. destruct Hv as [Hv | Hv].
    + unfold endsOtherThan in Hv. simpl in Hv.
      apply negb_true_iff, String.eqb_neq in Hv. contradiction.
    + congruence.
  - rewrite endsOtherThan_cons in Hv. destruct Hl as [Hab Hl].
    change ((a = b -> a = r) /\ RepeatsOnly r ((b :: t) ++ [v])). auto.
Qed.

Lemma Forall_snoc {A} (P : A -> Prop) (l : list A) (x : A) :
  Forall P l -> P x -> Forall P (l ++ [x]).
Proof. intros Hl Hx. apply Forall_app. auto. Qed.

End SequenceFacts.

(** ** The sequence of the digraph phonemizer *)

Module BackupSequenceFacts.

Import JsString JsStringFacts Backup BackupFacts SequenceFacts.

Lemma phonemeToViseme_shape (ph : string) :
  In (phonemeToViseme ph) MOUTH_SHAPES.
Proof.
  unfold phonemeToViseme, MOUTH_SHAPES.
  repeat match goal with
         | |- context [if ?b then _ else _] => destruct b
         end; simpl; tauto.
Qed.

Lemma slice_length (text : JsString.t) (i : nat) :
  length (slice text i (i + 2)) = Nat.min 2 (length text - i).
Proof.
  unfold slice. replace (i + 2 - i)%nat with 2%nat by lia.
  rewrite length_firstn, length_skipn. reflexivity.
Qed.

(** A digraph is matched only where two characters are left. *)
Lemma skip_within (text : JsString.t) (i : nat) :
  (i < length text)%nat ->
  (i + snd (charToPhonemePair text i) <= length text)%nat.
Proof.
  intros Hi.
  assert (Hpair : forall s, eqb (toLowerCase (slice text i (i + 2))) (lit s)
                            = true ->
                            String.length s = 2%nat ->
                            (i + 2 <= length text)%nat).
  { intros s H Hs. apply eqb_eq in H.
    apply (f_equal (@length ascii)) in H.
    unfold toLowerCase in H. rewrite length_map, slice_length in H.
    unfold lit in H.
    assert (L : length (list_ascii_of_string s) = String.length s).
    { clear. induction s; simpl; auto. }
    rewrite L, Hs in H. lia. }
  unfold charToPhonemePair.
  repeat match goal with
         | |- context [eqb ?p (lit ?s)] =>
             let E := fresh "E" in
             destruct (eqb p (lit s)) eqn:E;
             [simpl snd; apply (Hpair _ E); reflexivity|]
         end.
  repeat match goal with
         | |- context [if ?b then _ else _] => destruct b
         end; simpl; lia.
Qed.

Lemma scanStep_steady (text : JsString.t) (st : ScanState) :
  (scan_i st < length text)%nat ->
  Steady text st -> Steady text (scanStep text st).
Proof.
  intros Hi [Hrep [Hshape [Hlen Hne]]].
  pose proof (skip_within text (scan_i st) Hi) as Hin.
  pose proof (skip_one_or_two text (scan_i st)) as Hskip.
  unfold Steady, scanStep.
  destruct (charToPhonemePair text (scan_i st)) as [ph skip].
  simpl snd in *. simpl scan_i. simpl scan_seq.
  destruct (endsOtherThan (scan_seq st) (phonemeToViseme ph)) eqn:E.
  - split; [apply NoRepeat_snoc; assumption|].
    split; [apply Forall_snoc; [assumption | apply phonemeToViseme_shape]|].
    rewrite length_app. simpl length.
    split; [lia|]. intros _. destruct (scan_seq st); discriminate.
  - split; [assumption|]. split; [assumption|].
    split; [lia|]. intros _. apply (endsOtherThan_nonempty _ _ E).
Qed.

Lemma scanLoop_steady (text : JsString.t) (fuel : nat) :
  forall st st', Steady text st -> scanLoop fuel text st = Some st' ->
  Steady text st' /\ scan_i st' = length text.
Proof.
  induction fuel as [|fuel IH]; intros st st' Hst; simpl.
  - destruct (Nat.leb_spec (length text) (scan_i st)); [|discriminate].
    intros E. injection E as <-. split; [exact Hst|].
    destruct Hst as [_ [_ [? _]]]. lia.
  - destruct (Nat.leb_spec (length text) (scan_i st)).
    + intros E. injection E as <-. split; [exact Hst|].
      destruct Hst as [_ [_ [? _]]]. lia.
    + apply IH. apply scanStep_steady; assumption.
Qed.

Lemma sequence_facts (text : JsString.t) :
  NoRepeat (textToVisemeSequence text)
  /\ Forall (fun v => In v MOUTH_SHAPES) (textToVisemeSequence text)
  /\ (length (textToVisemeSequence text) <= length text)%nat
  /\ (textToVisemeSequence text = [] <-> text = [])
  /\ (exists st, scanLoop (length text) text (mkScan 0 []) = Some st
                 /\ scan_i st = length text).
Proof.
  destruct (scanLoop_enough text (length text) (mkScan 0 []))
    as [st [Hst _]]; [simpl; lia|].
  assert (Hseq : textToVisemeSequence text = scan_seq st)
    by (unfold textToVisemeSequence; rewrite Hst; reflexivity).
  assert (H0 : Steady text (mkScan 0 [])).
  { unfold Steady; simpl. repeat split; auto; try lia. }
  destruct (scanLoop_steady text _ _ _ H0 Hst) as [[Hrep [Hshape [Hlen Hne]]] Hi].
  rewrite Hseq.
  split; [exact Hrep|]. split; [exact Hshape|]. split; [lia|].
  split; [|eauto].
  split.
  - intros E. destruct text as [|c text]; [reflexivity|].
    exfalso. apply Hne; [rewrite Hi; simpl; lia | exact E].
  - intros ->. simpl in Hlen. destruct (scan_seq st); [reflexivity|].
    simpl in Hlen. lia.
Qed.

Lemma sequence_empty (text : JsString.t) :
  textToVisemeSequence text = [] <-> text = [].
Proof. apply sequence_facts. Qed.

(** The sequence of [textToVisemeSequence] of server_backup.js never
    repeats a viseme, holds only the six mouth shapes, is no longer than
    the text, and is empty for the empty text only; the scan stops with
    its index exactly at the end of the text. *)
Theorem digraph_sequence_shape (text : JsString.t) :
  NoRepeat (textToVisemeSequence text)
  /\ Forall (fun v => In v MOUTH_SHAPES) (textToVisemeSequence text)
  /\ (length (textToVisemeSequence text) <= length text)%nat
  /\ (textToVisemeSequence text = [] <-> text = [])
  /\ (exists st, scanLoop (length text) text (mkScan 0 []) = Some st
                 /\ scan_i st = length text).
Proof. apply sequence_facts. Qed.

Lemma digraph_sequence_shape_witness :
  textToVisemeSequence (lit "hi") <> [].
Proof.
  intros H.
  apply (proj1 (proj1 (proj2 (proj2 (proj2
           (digraph_sequence_shape (lit "hi"))))))) in H.
  discriminate H.
Defined.

End BackupSequenceFacts.

(** ** The sequence of the per-character phonemizer *)

Module HeuristicSequenceFacts.

Import JsString Heuristic SequenceFacts.

Lemma charToViseme_shape (c : ascii) : In (charToViseme c) LETTER_SHAPES.
Proof.
  destruct c as [[] [] [] [] [] [] [] []]; vm_compute; tauto.
Qed.

(** The test for the letter o comes after the test for the vowels, which
    already answers A for it: no character is mapped to O by
    [charToViseme], and [charToVisemeEnhanced] answers O for the letter w
    only. *)
Theorem round_viseme_unreachable (c : ascii) :
  charToViseme c <> "O"%string
  /\ (Enhanced.charToVisemeEnhanced c = "O"%string
      <-> lowerChar c = "w"%char).
Proof.
  split.
  - intros H. pose proof (charToViseme_shape c) as Hin. rewrite H in Hin.
    simpl in Hin. repeat destruct Hin as [Hin | Hin]; try discriminate Hin.
    exact Hin.
  - destruct c as [[] [] [] [] [] [] [] []]; vm_compute;
      split; intro H; first [reflexivity | discriminate H].
Qed.

Lemma round_viseme_unreachable_witness :
  Enhanced.charToVisemeEnhanced "W" = "O"%string.
Proof.
  exact (proj2 (proj2 (round_viseme_unreachable "W"%char)) eq_refl).
Defined.

Lemma seqStep_keeps (seq : list string) (c : ascii) :
  NoRepeat seq -> Forall (fun v => In v LETTER_SHAPES) seq ->
  NoRepeat (seqStep seq c)
  /\ Forall (fun v => In v LETTER_SHAPES) (seqStep seq c)
  /\ (length (seqStep seq c)
      <= length seq + (if isKept c then 1 else 0))%nat
  /\ (seq <> [] \/ isKept c = true -> seqStep seq c <> []).
Proof.
  intros Hrep Hin. unfold seqStep.
  destruct (isKept c); simpl negb; cbv iota.
  - destruct (endsOtherThan seq (charToViseme c)) eqn:E.
    + split; [apply NoRepeat_snoc; assumption|].
      split; [apply Forall_snoc; [assumption | apply charToViseme_shape]|].
      rewrite length_app. simpl. split; [lia|].
      intros _. destruct seq; discriminate.
    + split; [assumption|]. split; [assumption|]. split; [lia|].
      intros _. apply (endsOtherThan_nonempty _ _ E).
  - split; [assumption|]. split; [assumption|]. split; [lia|].
    intros [H | H]; [exact H | discriminate H].
Qed.

Lemma fold_keeps (text : JsString.t) :
  forall seq,
    NoRepeat seq -> Forall (fun v => In v LETTER_SHAPES) seq ->
    NoRepeat (fold_left seqStep text seq)
    /\ Forall (fun v => In v LETTER_SHAPES) (fold_left seqStep text seq)
    /\ (length (fold_left seqStep text seq)
        <= length seq + length (filter isKept text))%nat
    /\ (seq <> [] \/ filter isKept text <> [] ->
        fold_left seqStep text seq <> []).
Proof.
  induction text as [|c text IH]; intros seq Hrep Hin; simpl.
  - split; [assumption|]. split; [assumption|]. split; [lia|].
    intros [H | H]; [exact H | congruence].
  - destruct (seqStep_keeps seq c Hrep Hin) as [Hrep' [Hin' [Hlen' Hne']]].
    destruct (IH (seqStep seq c) Hrep' Hin') as [Hr [Hi [Hl Hn]]].
    split; [assumption|]. split; [assumption|].
    destruct (isKept c) eqn:E; simpl length in *.
    + split; [lia|]. intros _. apply Hn. left. apply Hne'. right. reflexivity.
    + split; [lia|]. intros [H | H]; apply Hn; [left | right; exact H].
      apply Hne'. left. exact H.
Qed.

(** The sequence of [textToVisemeSequence] of the first server never
    repeats a viseme, holds only A, M, FV, L and E, has at most one entry
    for each character the regular expression keeps, and is empty
    exactly when the text has no such character. *)
Theorem character_sequence_shape (text : JsString.t) :
  NoRepeat (textToVisemeSequence text)
  /\ Forall (fun v => In v LETTER_SHAPES) (textToVisemeSequence text)
  /\ (length (textToVisemeSequence text)
      <= length (filter isKept text))%nat
  /\ (textToVisemeSequence text = [] <-> filter isKept text = []).
Proof.
  unfold textToVisemeSequence.
  destruct (fold_keeps text [] I (Forall_nil _)) as [Hr [Hi [Hl Hn]]].
  split; [assumption|]. split; [assumption|]. split; [simpl in Hl; lia|].
  split.
  - intros E. destruct (filter isKept text) eqn:F; [reflexivity|].
    exfalso. apply Hn; [right; discriminate | exact E].
  - intros F. rewrite F in Hl. simpl in Hl.
    destruct (fold_left seqStep text []); [reflexivity | simpl in Hl; lia].
Qed.

Lemma character_sequence_shape_witness :
  textToVisemeSequence (lit "?!") = [].
Proof.
  exact (proj2 (proj2 (proj2 (proj2
           (character_sequence_shape (lit "?!"))))) eq_refl).
Defined.

End HeuristicSequenceFacts.

(** ** The shape of the jittered timelines *)

Module JitterFacts.

Import Jitter TimelineFacts JsNumFacts.

Lemma backup_is_layOut (rand : nat -> Q) (avg d : Q) (visemes : list string) :
  forall i c,
    Backup.timelineLoop rand avg d i c visemes
    = layOut (backupHold rand avg) d i c visemes.
Proof.
  induction visemes as [|v rest IH]; intros i c; simpl; [reflexivity|].
  rewrite IH. reflexivity.
Qed.

Lemma first_is_layOut (rand : nat -> Q) (base d : Q) (visemes : list string) :
  forall i c,
    Heuristic.timelineLoop rand base d i c visemes
    = layOut (Heuristic.holdOf rand base) d i c visemes.
Proof.
  induction visemes as [|v rest IH]; intros i c; simpl; [reflexivity|].
  rewrite IH. reflexivity.
Qed.

Lemma setLastEnd_labels (tl : list VisemeSegment) (e : Q) :
  map viseme (setLastEnd tl e) = map viseme tl.
Proof.
  induction tl as [|s [|s' tl] IH]; try reflexivity.
  rewrite setLastEnd_cons2. simpl map in *. rewrite IH. reflexivity.
Qed.

Lemma setLastEnd_contiguous (tl : list VisemeSegment) (e : Q) :
  Contiguous tl -> Contiguous (setLastEnd tl e).
Proof.
  induction tl as [|s [|s' [|s'' tl]] IH]; intros H; try exact I.
  - destruct H as [H _]. simpl. auto.
  - destruct H as [H H']. rewrite setLastEnd_cons2.
    specialize (IH H'). rewrite setLastEnd_cons2 in *.
    split; [exact H | exact IH].
Qed.

Section LayOut.

Variable hold : nat -> Q.
Variable d : Q.

Lemma layOut_labels (visemes : list string) :
  forall i c, map viseme (layOut hold d i c visemes) = visemes.
Proof.
  induction visemes as [|v rest IH]; intros i c; simpl; [reflexivity|].
  rewrite IH. reflexivity.
Qed.

Lemma layOut_contiguous (visemes : list string) :
  forall i c, Contiguous (layOut hold d i c visemes).
Proof.
  induction visemes as [|v [|v' rest] IH]; intros i c; try exact I.
  split; [reflexivity|]. apply IH.
Qed.

Lemma layOut_first (visemes : list string) (i : nat) (c : Q) :
  visemes <> [] ->
  firstStart (layOut hold d i c visemes) = Some (JsNum.toFixed3 c).
Proof. destruct visemes; [congruence | reflexivity]. Qed.

Lemma layOut_nonempty (visemes : list string) (i : nat) (c : Q) :
  visemes <> [] -> layOut hold d i c visemes <> [].
Proof. destruct visemes; [congruence | discriminate]. Qed.

Hypothesis hold_nonneg : forall i, 0 <= hold i.

(** With holds that are not negative the cursor moves forward and stays
    under the duration. *)
Lemma layOut_within (visemes : list string) :
  forall i c, 0 <= c -> c <= d ->
  WithinAudio (JsNum.toFixed3 d)
    (setLastEnd (layOut hold d i c visemes) (JsNum.toFixed3 d)).
Proof.
  unfold WithinAudio.
  induction visemes as [|v [|v' rest] IH]; intros i c H0 Hd.
  - constructor.
  - change (Forall (fun s => 0 <= start s /\ start s <= end_ s
                              /\ end_ s <= JsNum.toFixed3 d)
              [mkViseme v (JsNum.toFixed3 c) (JsNum.toFixed3 d) None]).
    constructor; [|constructor]. cbn [start end_].
    pose proof (toFixed3_mono 0 c H0) as M0. rewrite toFixed3_zero in M0.
    pose proof (toFixed3_mono c d Hd).
    split; [exact M0 | split; [assumption | apply Qle_refl]].
  - set (c' := JsNum.min d (c + hold i)).
    change (layOut hold d i c (v :: v' :: rest))
      with (mkViseme v (JsNum.toFixed3 c) (JsNum.toFixed3 c') None
            :: layOut hold d (S i) c' (v' :: rest)).
    assert (Hc' : c <= c' /\ c' <= d).
    { subst c'. pose proof (hold_nonneg i).
      destruct (min_spec d (c + hold i)) as [[? ->] | [? ->]]; split; lra. }
    destruct Hc' as [Hcc' Hc'd].
    specialize (IH (S i) c' ltac:(lra) Hc'd).
    destruct (layOut hold d (S i) c' (v' :: rest)) as [|s' tl'] eqn:E;
      [discriminate E|].
    rewrite setLastEnd_cons2. constructor; [|exact IH]. cbn [start end_].
    pose proof (toFixed3_mono 0 c H0) as M0. rewrite toFixed3_zero in M0.
    pose proof (toFixed3_mono c c' Hcc').
    pose proof (toFixed3_mono c' d Hc'd).
    split; [exact M0 | split; assumption].
Qed.

End LayOut.

(** A chain of segments that starts at or before [t] and is forced to end
    after [t] shows a viseme at [t]. *)
Lemma layOut_covers (hold : nat -> Q) (d e t : Q) (visemes : list string) :
  visemes <> [] ->
  forall i c, JsNum.toFixed3 c <= t -> t < e ->
  exists v, Player.activeViseme (setLastEnd (layOut hold d i c visemes) e) t
            = Some v
            /\ In v visemes.
Proof.
  induction visemes as [|v [|v' rest] IH]; intros Hne i c Hlo Hhi.
  - congruence.
  - exists v. simpl.
    apply Qle_bool_iff in Hlo. rewrite Hlo.
    destruct (Qle_bool e t) eqn:E; [apply Qle_bool_iff in E; lra|].
    simpl. auto.
  - set (c' := JsNum.min d (c + hold i)).
    change (layOut hold d i c (v :: v' :: rest))
      with (mkViseme v (JsNum.toFixed3 c) (JsNum.toFixed3 c') None
            :: layOut hold d (S i) c' (v' :: rest)).
    pose proof (layOut_nonempty hold d (v' :: rest) (S i) c'
                  ltac:(discriminate)) as Hrest.
    destruct (layOut hold d (S i) c' (v' :: rest)) as [|s' tl'] eqn:E;
      [congruence|].
    rewrite setLastEnd_cons2. rewrite <- E.
    simpl Player.activeViseme. apply Qle_bool_iff in Hlo. rewrite Hlo.
    destruct (Qle_bool (JsNum.toFixed3 c') t) eqn:Et; simpl.
    + apply Qle_bool_iff in Et.
      destruct (IH ltac:(discriminate) (S i) c' Et Hhi) as [w [Hw Hin]].
      exists w. split; [exact Hw | right; exact Hin].
    + exists v. split; [reflexivity | left; reflexivity].
Qed.

Lemma avg_nonneg (d : Q) (n : nat) : 0 <= d -> 0 <= d / inject_Z (Z.of_nat n).
Proof.
  intros Hd. unfold Qdiv. apply Qmult_le_0_compat; [exact Hd|].
  apply Qinv_le_0_compat. replace 0 with (inject_Z 0) by reflexivity.
  rewrite <- Zle_Qle. lia.
Qed.

(** Both jittered builders keep the visemes in their order, one segment
    each, lay the segments end to start, open the timeline at 0 and
    close it at the rounded duration. *)
Theorem jittered_timeline_chain (rand : nat -> Q) (visemes : list string)
    (duration : Q) :
  (map viseme (Backup.buildVisemeTimeline rand visemes duration) = visemes
   /\ Contiguous (Backup.buildVisemeTimeline rand visemes duration)
   /\ (visemes <> [] ->
       firstStart (Backup.buildVisemeTimeline rand visemes duration) = Some 0
       /\ lastEnd (Backup.buildVisemeTimeline rand visemes duration)
          = Some (JsNum.toFixed3 duration)))
  /\ (map viseme (Heuristic.buildVisemeTimeline rand visemes duration)
      = visemes
      /\ Contiguous (Heuristic.buildVisemeTimeline rand visemes duration)
      /\ (visemes <> [] ->
          firstStart (Heuristic.buildVisemeTimeline rand visemes duration)
          = Some 0
          /\ lastEnd (Heuristic.buildVisemeTimeline rand visemes duration)
             = Some (JsNum.toFixed3 duration))).
Proof.
  unfold Backup.buildVisemeTimeline, Heuristic.buildVisemeTimeline.
  destruct visemes as [|v rest].
  - repeat split; try exact I; congruence.
  - rewrite backup_is_layOut, first_is_layOut.
    split; (split; [rewrite setLastEnd_labels; apply layOut_labels|];
            split; [apply setLastEnd_contiguous, layOut_contiguous|];
            intros _; split;
            [rewrite setLastEnd_firstStart; reflexivity
            |apply setLastEnd_lastEnd; discriminate]).
Qed.

Lemma jittered_timeline_chain_witness :
  firstStart (Backup.buildVisemeTimeline (constRand (1#2))
                ["A"; "M"]%string 1) = Some 0
  /\ lastEnd (Backup.buildVisemeTimeline (constRand (1#2))
                ["A"; "M"]%string 1) = Some 1.
Proof.
  exact (proj2 (proj2 (proj1
           (jittered_timeline_chain (constRand (1#2)) ["A"; "M"]%string 1)))
           ltac:(discriminate)).
Defined.

(** When the audio duration and the random draws are not negative, every
    segment of the timeline of server_backup.js runs forward between 0
    and the rounded duration; the first server needs the duration only,
    its hold being at least 40 ms. *)
Theorem jittered_timeline_within_audio (rand : nat -> Q)
    (visemes : list string) (duration : Q) :
  0 <= duration ->
  ((forall i, 0 <= rand i) ->
   WithinAudio (JsNum.toFixed3 duration)
     (Backup.buildVisemeTimeline rand visemes duration))
  /\ WithinAudio (JsNum.toFixed3 duration)
       (Heuristic.buildVisemeTimeline rand visemes duration).
Proof.
  intros Hd.
  unfold Backup.buildVisemeTimeline, Heuristic.buildVisemeTimeline.
  destruct visemes as [|v rest]; [split; [intros _|]; constructor|].
  rewrite backup_is_layOut, first_is_layOut. split.
  - intros Hrand. apply layOut_within; [|lra | exact Hd].
    intros i. unfold backupHold.
    apply Qmult_le_0_compat; [apply avg_nonneg; exact Hd|].
    specialize (Hrand i). lra.
  - apply layOut_within; [|lra | exact Hd].
    intros i. pose proof (HeuristicTimelineFacts.holdOf_floor rand
                            (duration / inject_Z (Z.of_nat (length (v :: rest)))) i).
    lra.
Qed.

Lemma jittered_timeline_within_audio_witness :
  0 <= 1
  /\ WithinAudio 1
       (Backup.buildVisemeTimeline (constRand (1#2)) ["A"; "M"]%string 1).
Proof.
  split; [discriminate|].
  exact (proj1 (jittered_timeline_within_audio (constRand (1#2))
                  ["A"; "M"]%string 1 ltac:(discriminate))
           (fun _ => ltac:(discriminate))).
Defined.

(** While the audio plays, the page always finds a viseme to show in a
    jittered timeline: every instant from 0 to the rounded duration lies
    in a segment, whose viseme is one of the sequence. *)
Theorem jittered_timeline_has_no_hole (rand : nat -> Q)
    (visemes : list string) (duration t : Q) :
  visemes <> [] -> 0 <= t -> t < JsNum.toFixed3 duration ->
  (exists v, Player.activeViseme
               (Backup.buildVisemeTimeline rand visemes duration) t = Some v
             /\ In v visemes)
  /\ (exists v, Player.activeViseme
                  (Heuristic.buildVisemeTimeline rand visemes duration) t
                = Some v
                /\ In v visemes).
Proof.
  intros Hne H0 Ht.
  unfold Backup.buildVisemeTimeline, Heuristic.buildVisemeTimeline.
  destruct visemes as [|v rest]; [congruence|].
  rewrite backup_is_layOut, first_is_layOut.
  split; apply layOut_covers; try assumption; rewrite toFixed3_zero; exact H0.
Qed.

Lemma jittered_timeline_has_no_hole_witness :
  exists v, Player.activeViseme
              (Backup.buildVisemeTimeline (constRand (1#2))
                 ["A"; "M"]%string 1) (3#4) = Some v
            /\ In v ["A"; "M"]%string.
Proof.
  exact (proj1 (jittered_timeline_has_no_hole (constRand (1#2))
                  ["A"; "M"]%string 1 (3#4)
                  ltac:(discriminate) ltac:(discriminate) ltac:(reflexivity))).
Defined.

End JitterFacts.

(** ** The viseme table and the conversion of the enhanced server *)

Module ConversionFacts.

Import Enhanced EnhancedNotions TimelineFacts AlignedFacts.

Lemma lookup_in (key : string) (table : list (string * string)) (v : string) :
  lookup key table = Some v -> In v (map snd table).
Proof.
  induction table as [|[k x] table IH]; simpl; [discriminate|].
  destruct (String.eqb k key).
  - intros H. injection H as ->. left. reflexivity.
  - intros H. right. auto.
Qed.

Lemma table_values : Forall (fun v => In v VISEMES) (map snd PHONEME_TO_VISEME).
Proof.
  apply Forall_forall. intros v Hv.
  assert (H : forallb (fun v => existsb (String.eqb v) VISEMES)
                      (map snd PHONEME_TO_VISEME) = true)
    by (vm_compute; reflexivity).
  rewrite forallb_forall in H. specialize (H v Hv).
  apply existsb_exists in H as [x [Hx E]].
  apply String.eqb_eq in E. subst x. exact Hx.
Qed.

Lemma visemeOr_shape (ph dflt : string) :
  In dflt VISEMES -> In (visemeOr ph dflt) VISEMES.
Proof.
  intros Hd. unfold visemeOr.
  destruct (lookup ph PHONEME_TO_VISEME) as [v|] eqn:E; [|exact Hd].
  apply lookup_in in E. pose proof table_values as T.
  rewrite Forall_forall in T. auto.
Qed.

Lemma visemeOf_shape (ph : string) : In (visemeOf ph) VISEMES.
Proof.
  unfold visemeOf. apply visemeOr_shape. apply visemeOr_shape.
  simpl. tauto.
Qed.

Lemma visemeAt_shape (phones : list PhonemeSegment) (i : nat) :
  Forall (fun s => In (viseme s) VISEMES) (visemeAt phones i).
Proof.
  unfold visemeAt. destruct (nth_error phones i) as [p|]; [|constructor].
  cbv zeta.
  match goal with
  | |- context [if ?b then _ else _] => destruct b
  end; constructor; [apply visemeOf_shape | constructor].
Qed.

(** The conversion, before its last test. *)
Lemma converted_body (phones : list PhonemeSegment) :
  exists initial tail,
    phonemesToVisemesEnhanced phones
    = initial ++ flat_map (visemeAt phones) (seq 0 (length phones)) ++ tail
    /\ Forall (fun s => viseme s = "rest"%string) initial
    /\ Forall (fun s => viseme s = "rest"%string) tail
    /\ (length initial <= 1)%nat /\ (length tail <= 1)%nat.
Proof.
  unfold phonemesToVisemesEnhanced. cbv zeta.
  match goal with
  | |- context [?ini ++ flat_map ?f ?l] =>
      set (initial := ini); set (body := flat_map f l)
  end.
  assert (Hini : Forall (fun s => viseme s = "rest"%string) initial
                 /\ (length initial <= 1)%nat).
  { subst initial. destruct phones as [|q qs]; [split; [constructor | simpl; lia]|].
    destruct (ltb 0 (ph_start q)); split; simpl; try lia;
      repeat constructor. }
  destruct Hini as [Hini Hlen].
  destruct (rev (initial ++ body)) as [|lastViseme ?];
    [exists initial, []; rewrite app_nil_r; repeat split; auto; simpl; lia|].
  destruct (rev phones) as [|lastPhone ?];
    [exists initial, []; rewrite app_nil_r; repeat split; auto; simpl; lia|].
  destruct (ltb (end_ lastViseme) (ph_end lastPhone)).
  - eexists initial, [_]. rewrite <- app_assoc.
    split; [reflexivity|]. repeat split; auto; repeat constructor.
  - exists initial, []. rewrite app_nil_r. repeat split; auto; simpl; lia.
Qed.

Lemma converted_in_vocabulary (phones : list PhonemeSegment) :
  Forall (fun s => In (viseme s) VISEMES) (phonemesToVisemesEnhanced phones).
Proof.
  destruct (converted_body phones) as [initial [tail [-> [Hi [Ht _]]]]].
  assert (Hrest : forall l, Forall (fun s => viseme s = "rest"%string) l ->
                            Forall (fun s => In (viseme s) VISEMES) l).
  { intros l H. eapply Forall_impl; [|exact H].
    intros s Hs. simpl in Hs. rewrite Hs. simpl. tauto. }
  apply Forall_app. split; [auto|]. apply Forall_app. split; [|auto].
  apply Forall_flat_map. apply Forall_forall. intros i _.
  apply visemeAt_shape.
Qed.



(** The word-level guess answers FV for a word in F, V, C or K, but the
    table has no entry FV: such a word is shown with the default A, and
    no guessed word is ever shown with FV. *)
Theorem guessed_word_never_shows_fv (word : JsString.t) :
  In (visemeOf (guessPhonemeFromWord word)) ["A"; "M"; "E"; "L"]%string
  /\ (guessPhonemeFromWord word = "FV"%string ->
      visemeOf (guessPhonemeFromWord word) = "A"%string)
  /\ lookup "FV" PHONEME_TO_VISEME = None.
Proof.
  split; [|split; [intros ->; reflexivity | reflexivity]].
  unfold guessPhonemeFromWord.
  repeat match goal with
         | |- context [if ?b then _ else _] => destruct b
         end; vm_compute; tauto.
Qed.

Lemma guessed_word_never_shows_fv_witness :
  guessPhonemeFromWord (JsString.lit "five") = "FV"%string
  /\ visemeOf (guessPhonemeFromWord (JsString.lit "five")) = "A"%string.
Proof.
  split; [reflexivity|].
  exact (proj1 (proj2 (guessed_word_never_shows_fv (JsString.lit "five")))
           eq_refl).
Defined.



(** At the threshold binary64 decides: the phoneme from 0.1 to 0.15,
    50 ms on paper, is dropped between two M. *)
Lemma fifty_ms_on_paper_dropped :
  phonemesToVisemesEnhanced
    [mkPhone "M" 0 (1#10) 1; mkPhone "AA" (1#10) (15#100) 1;
     mkPhone "M" (15#100) (3#10) 1]
  = [mkViseme "M" 0 (1#10) (Some 1); mkViseme "M" (15#100) (3#10) (Some 1)].
Proof. vm_compute. reflexivity. Qed.


(** The test that would add a final rest compares the end of the last
    viseme with the end of the last phoneme, and the last phoneme is
    never dropped: no rest is ever added at the end, the timeline closes
    with the segment of the last phoneme and has at most one segment
    more than there are phonemes. *)
Theorem final_rest_never_added (p : PhonemeSegment)
    (ps : list PhonemeSegment) :
  (exists front, phonemesToVisemesEnhanced (p :: ps)
                 = front ++ [segmentOf (last ps p)])
  /\ (length (phonemesToVisemesEnhanced (p :: ps)) <= S (length (p :: ps)))%nat.
Proof.
  split.
  - rewrite (app_removelast_last p (l := p :: ps)) by discriminate.
    destruct (converted_shape (removelast (p :: ps)) (last (p :: ps) p))
      as [front ->].
    exists front. rewrite last_cons. reflexivity.
  - assert (Hbody : (length (flat_map (visemeAt (p :: ps))
                               (seq 0 (length (p :: ps))))
                     <= length (p :: ps))%nat).
    { generalize (p :: ps) at 1 as phones. intros phones.
      generalize (length (p :: ps)) as n. generalize 0%nat as from.
      intros from n. revert from.
      induction n as [|n IH]; intros from; simpl; [lia|].
      rewrite length_app. specialize (IH (S from)).
      assert (length (visemeAt phones from) <= 1)%nat.
      { unfold visemeAt. destruct (nth_error phones from); [|simpl; lia].
        cbv zeta.
        match goal with
        | |- context [if ?b then _ else _] => destruct b
        end; simpl; lia. }
      lia. }
    rewrite (app_removelast_last p (l := p :: ps)) in * by discriminate.
    set (phones := removelast (p :: ps) ++ [last (p :: ps) p]) in *.
    unfold phonemesToVisemesEnhanced. cbv zeta.
    match goal with
    | |- context [?ini ++ flat_map ?f ?l] => set (initial := ini)
    end.
    assert (Hini : (length initial <= 1)%nat).
    { subst initial. destruct phones as [|q qs]; [simpl; lia|].
      destruct (ltb 0 (ph_start q)); simpl; lia. }
    destruct (converted_shape (removelast (p :: ps)) (last (p :: ps) p))
      as [front Hshape].
    fold phones in Hshape.
    unfold phonemesToVisemesEnhanced in Hshape. cbv zeta in Hshape.
    fold initial in Hshape.
    destruct (rev (initial ++ flat_map (visemeAt phones)
                                (seq 0 (length phones))))
      as [|lastViseme ?] eqn:Erev;
      [rewrite length_app; lia|].
    destruct (rev phones) as [|lastPhone ?] eqn:Ephones;
      [rewrite length_app; lia|].
    destruct (ltb (end_ lastViseme) (ph_end lastPhone)) eqn:Elt;
      [|rewrite length_app; lia].
    exfalso.
    assert (Hv : lastViseme = segmentOf (last (p :: ps) p)).
    { subst phones. revert Erev.
      rewrite length_app, seq_app, flat_map_app. simpl seq. simpl flat_map.
      rewrite app_nil_r, visemeAt_last, app_assoc, rev_unit.
      intros E. injection E as <- _. reflexivity. }
    assert (Hp : lastPhone = last (p :: ps) p).
    { subst phones. rewrite rev_unit in Ephones.
      injection Ephones as <- _. reflexivity. }
    rewrite Hv, Hp in Elt. simpl end_ in Elt.
    rewrite ltb_irrefl in Elt. discriminate Elt.
Qed.

End ConversionFacts.

(** ** More on the smoother *)

Module SmootherShapeFacts.

Import Enhanced EnhancedNotions SmootherFacts AlignedFacts.

Lemma smoothWith_length (thr : Q) (n : nat) :
  forall l, (length l <= n)%nat ->
  (length (smoothWith thr l) <= length l)%nat.
Proof.
  induction n as [|n IH]; intros l Hlen.
  - destruct l; [simpl; lia | simpl in Hlen; lia].
  - destruct l as [|a [|b rest]]; try (simpl; lia).
    rewrite smoothWith_cons2. destruct (mergeable thr a b).
    + specialize (IH (merged a b :: rest)). simpl in *. lia.
    + specialize (IH (b :: rest)). simpl in *. lia.
Qed.

(** The smoother returns no more segments than it gets, none for none;
    the first segment keeps its label and its start, and the last end is
    the end of the last segment given: the span of the timeline is
    unchanged. *)
Theorem smoother_keeps_span (a : PhonemeSegment) (l : list PhonemeSegment) :
  smoothPhonemeTimeline [] = []
  /\ (length (smoothPhonemeTimeline (a :: l)) <= length (a :: l))%nat
  /\ exists a' l',
       smoothPhonemeTimeline (a :: l) = a' :: l'
       /\ phoneme a' = phoneme a
       /\ ph_start a' = ph_start a
       /\ ph_end (last l' a') = ph_end (last l a).
Proof.
  split; [reflexivity|]. split.
  - apply (smoothWith_length MERGE_THRESHOLD (length (a :: l))). lia.
  - unfold smoothPhonemeTimeline.
    destruct (smoothWith_ends MERGE_THRESHOLD l a) as [a' [l' [E [Hs He]]]].
    destruct (smoothWith_head MERGE_THRESHOLD l a) as [a2 [l2 [E2 [Hp _]]]].
    rewrite E in E2. injection E2 as <- <-.
    exists a', l'. auto.
Qed.

Lemma smoothWith_no_mergeable (n : nat) :
  forall l, (length l <= n)%nat ->
  NoMergeable (smoothWith MERGE_THRESHOLD l).
Proof.
  induction n as [|n IH]; intros l Hlen.
  - destruct l; [exact I | simpl in Hlen; lia].
  - destruct l as [|a [|b rest]]; try exact I.
    rewrite smoothWith_cons2.
    destruct (mergeable MERGE_THRESHOLD a b) eqn:E.
    + apply IH. simpl in *. lia.
    + destruct (smoothWith_head MERGE_THRESHOLD rest b)
        as [b' [l' [Eb [Hp Hs]]]].
      assert (Hrec := IH (b :: rest) ltac:(simpl in *; lia)).
      rewrite Eb in *.
      split; [|exact Hrec].
      rewrite (mergeable_next MERGE_THRESHOLD a b b' Hp Hs). exact E.
Qed.

Lemma no_mergeable_fixed (l : list PhonemeSegment) :
  NoMergeable l -> smoothWith MERGE_THRESHOLD l = l.
Proof.
  induction l as [|a [|b rest] IH]; intros H; try reflexivity.
  destruct H as [Hab H]. rewrite smoothWith_cons2, Hab, (IH H). reflexivity.
Qed.

(** After smoothing no two neighbours are left that the smoother would
    merge, and the timelines the smoother leaves unchanged are exactly
    those without such neighbours. *)
Theorem smoother_fixed_points (l : list PhonemeSegment) :
  NoMergeable (smoothPhonemeTimeline l)
  /\ (smoothPhonemeTimeline l = l <-> NoMergeable l).
Proof.
  unfold smoothPhonemeTimeline.
  assert (H : NoMergeable (smoothWith MERGE_THRESHOLD l))
    by (apply (smoothWith_no_mergeable (length l)); lia).
  split; [exact H|]. split.
  - intros E. rewrite E in H. exact H.
  - apply no_mergeable_fixed.
Qed.

Lemma smoother_fixed_points_witness :
  smoothPhonemeTimeline [mkPhone "M" 0 (1#10) 1; mkPhone "AA" (1#10) (2#10) 1]
  = [mkPhone "M" 0 (1#10) 1; mkPhone "AA" (1#10) (2#10) 1].
Proof.
  apply (proj2 (proj2 (smoother_fixed_points
           [mkPhone "M" 0 (1#10) 1; mkPhone "AA" (1#10) (2#10) 1]))).
  split; [reflexivity | exact I].
Defined.

End SmootherShapeFacts.

(** ** More on the normalizer *)

Module NormalizerShapeFacts.

Import JsString Enhanced EnhancedNotions.

Lemma normalizePhone_count (w : GentleWord) (ps : list GentlePhone) :
  forall st,
    length (phones (fold_left (normalizePhone w) ps st))
    = (length (phones st)
       + length (filter (fun p => truthyStr (g_phone p)) ps))%nat.
Proof.
  induction ps as [|p ps IH]; intros st; simpl; [lia|].
  rewrite IH. unfold normalizePhone.
  destruct (truthyStr (g_phone p)); simpl.
  - rewrite length_app. simpl. lia.
  - lia.
Qed.

Lemma normalizeWord_count (st : NormState) (w : GentleWord) :
  length (phones (normalizeWord st w))
  = (length (phones st) + contribution w)%nat.
Proof.
  unfold normalizeWord, contribution. destruct (notAligned w); simpl.
  - rewrite length_app. reflexivity.
  - destruct (w_phones w) as [ps|]; simpl.
    + apply normalizePhone_count.
    + rewrite length_app. reflexivity.
Qed.

Lemma normalizeFrom_count (words : list GentleWord) :
  forall st,
    length (phones (normalizeFrom st words))
    = (length (phones st) + list_sum (map contribution words))%nat.
Proof.
  unfold normalizeFrom.
  induction words as [|w words IH]; intros st; simpl; [lia|].
  rewrite IH, normalizeWord_count. lia.
Qed.

(** The normalizer pushes one segment for a word that is not aligned,
    one for an aligned word without a phone list, and one for each phone
    that has a label; so it gives no segment at all, and the client
    answers null to a response that came in time, exactly when every
    word is aligned and carries a phone list without any labelled
    phone. *)
Theorem normalizer_counts_segments (words : list GentleWord) :
  length (normalizeWords words) = list_sum (map contribution words)
  /\ (normalizeWords words = []
      <-> Forall (fun w => contribution w = 0%nat) words)
  /\ (forall t, (t < ABORT_AFTER_MS)%N ->
        (runForcedAligner
           (mkWorld true (Some t) (FetchResponds true (BodyWords words)))
         = None
         <-> Forall (fun w => contribution w = 0%nat) words)).
Proof.
  assert (Hlen : length (normalizeWords words)
                 = list_sum (map contribution words)).
  { unfold normalizeWords. rewrite normalizeFrom_count. reflexivity. }
  assert (Hzero : list_sum (map contribution words) = 0%nat
                  <-> Forall (fun w => contribution w = 0%nat) words).
  { clear. induction words as [|w words IH]; simpl.
    - split; [constructor | reflexivity].
    - split.
      + intros H. constructor; [lia | apply IH; lia].
      + intros H. inversion H as [|? ? Hw Hws]; subst.
        apply IH in Hws. lia. }
  assert (Hempty : normalizeWords words = []
                   <-> Forall (fun w => contribution w = 0%nat) words).
  { rewrite <- Hzero, <- Hlen. split.
    - intros ->. reflexivity.
    - intros H. destruct (normalizeWords words); [reflexivity|].
      discriminate H. }
  split; [exact Hlen|]. split; [exact Hempty|].
  intros t Ht. rewrite <- Hempty.
  unfold runForcedAligner, awaitFetch; simpl.
  apply N.ltb_lt in Ht. rewrite Ht. simpl.
  destruct (normalizeWords words); split; intros H;
    first [reflexivity | discriminate H].
Qed.

Lemma normalizer_counts_segments_witness :
  runForcedAligner
    (mkWorld true (Some 5%N)
       (FetchResponds true
          (BodyWords [mkGWord None (Some (lit "hi"))
                        (Some [mkGPhone None None None None])
                        None None (Some (lit "hi"))])))
  = None.
Proof.
  apply (proj2 (proj2 (normalizer_counts_segments
           [mkGWord None (Some (lit "hi"))
              (Some [mkGPhone None None None None])
              None None (Some (lit "hi"))])) 5%N eq_refl).
  repeat constructor.
Defined.

Lemma upperChar_clean (x : ascii) :
  isDigit x = false ->
  forallb (fun c => negb (isDigit c) && negb (isLowerLetter c)) (upperChar x)
  = true.
Proof.
  destruct x as [[] [] [] [] [] [] [] []]; vm_compute;
    intro H; first [reflexivity | discriminate H].
Qed.

(** The label of a phone holds no digit (the stress marks are removed)
    and no small letter a to z. *)
Theorem phone_label_is_clean (s : JsString.t) (c : ascii) :
  In c (list_ascii_of_string (phoneLabel s)) ->
  isDigit c = false /\ isLowerLetter c = false.
Proof.
  unfold phoneLabel. rewrite list_ascii_of_string_of_list_ascii.
  unfold toUpperCase. rewrite in_flat_map. intros [x [Hx Hc]].
  apply filter_In in Hx as [_ Hx]. apply negb_true_iff in Hx.
  pose proof (upperChar_clean x Hx) as H.
  rewrite forallb_forall in H. specialize (H c Hc).
  apply andb_true_iff in H as [H1 H2].
  apply negb_true_iff in H1, H2. auto.
Qed.

Lemma phone_label_is_clean_witness :
  phoneLabel (lit "ah0") = "AH"%string
  /\ isDigit "H"%char = false /\ isLowerLetter "H"%char = false.
Proof.
  split; [reflexivity|].
  exact (phone_label_is_clean (lit "ah0") "H"%char
           ltac:(right; left; reflexivity)).
Defined.

End NormalizerShapeFacts.

(** ** More on the word-based fallback and the chat turn *)

Module FallbackShapeFacts.

Import JsString Enhanced TimelineFacts SequenceFacts.

Lemma labels_snoc (tl : list VisemeSegment) (s : VisemeSegment) :
  map viseme (tl ++ [s]) = map viseme tl ++ [viseme s].
Proof. rewrite map_app. reflexivity. Qed.

Lemma charStep_repeats (wordEnd charDuration : Q)
    (st : list VisemeSegment * Q) (c : ascii) :
  RepeatsOnly "rest" (map viseme (fst st)) ->
  RepeatsOnly "rest" (map viseme (fst (charStep wordEnd charDuration st c))).
Proof.
  destruct st as [vs t]. unfold charStep, lastVisemeDiffers. simpl fst.
  intros H.
  destruct (endsOtherThan (map viseme vs) (charToVisemeEnhanced c)) eqn:E;
    simpl fst; [|exact H].
  rewrite labels_snoc. apply RepeatsOnly_snoc; [exact H | left; exact E].
Qed.

Lemma chars_repeat (wordEnd charDuration : Q) (word : JsString.t) :
  forall st, RepeatsOnly "rest" (map viseme (fst st)) ->
  RepeatsOnly "rest"
    (map viseme (fst (fold_left (charStep wordEnd charDuration) word st))).
Proof.
  induction word as [|c word IH]; intros st H; simpl; auto.
  apply IH. apply charStep_repeats. exact H.
Qed.

Lemma wordStep_repeats (wordDuration : Q) (lastWord word : JsString.t)
    (st : list VisemeSegment * Q) :
  RepeatsOnly "rest" (map viseme (fst st)) ->
  RepeatsOnly "rest"
    (map viseme (fst (wordStep wordDuration lastWord st word))).
Proof.
  intros H. destruct st as [vs t]. unfold wordStep.
  match goal with
  | |- context [fold_left ?f word ?st0] =>
      pose proof (chars_repeat (t + wordDuration)
                    (wordDuration
                     / inject_Z (Z.of_nat (Nat.max (length word) 1)))
                    word st0 H) as K;
      destruct (fold_left f word st0) as [vs' t']
  end.
  simpl fst in K.
  destruct (negb (JsString.eqb word lastWord)); simpl fst; [|exact K].
  rewrite labels_snoc. apply RepeatsOnly_snoc; [exact K | right; reflexivity].
Qed.

Lemma words_repeat (wordDuration : Q) (lastWord : JsString.t)
    (words : list JsString.t) :
  forall st, RepeatsOnly "rest" (map viseme (fst st)) ->
  RepeatsOnly "rest"
    (map viseme (fst (fold_left (wordStep wordDuration lastWord) words st))).
Proof.
  induction words as [|w words IH]; intros st H; simpl; auto.
  apply IH. apply wordStep_repeats. exact H.
Qed.

(** In the word-based fallback a viseme is pushed for a character only
    when it differs from the last one: two neighbours of the timeline
    carry the same viseme only when both are rests. *)
Theorem fallback_repeats_only_rest (text : JsString.t) (duration : Q) :
  RepeatsOnly "rest" (map viseme (generateFallbackVisemes text duration)).
Proof.
  unfold generateFallbackVisemes.
  rewrite JitterFacts.setLastEnd_labels.
  apply words_repeat. exact I.
Qed.

Lemma charToVisemeEnhanced_shape (c : ascii) :
  In (charToVisemeEnhanced c) VISEMES.
Proof.
  destruct c as [[] [] [] [] [] [] [] []]; vm_compute; tauto.
Qed.

Lemma charStep_vocabulary (wordEnd charDuration : Q)
    (st : list VisemeSegment * Q) (c : ascii) :
  Forall (fun v => In v VISEMES) (map viseme (fst st)) ->
  Forall (fun v => In v VISEMES)
         (map viseme (fst (charStep wordEnd charDuration st c))).
Proof.
  destruct st as [vs t]. unfold charStep. simpl fst. intros H.
  destruct (lastVisemeDiffers vs (charToVisemeEnhanced c)); simpl fst;
    [|exact H].
  rewrite labels_snoc. apply Forall_snoc; [exact H|].
  apply charToVisemeEnhanced_shape.
Qed.

Lemma chars_vocabulary (wordEnd charDuration : Q) (word : JsString.t) :
  forall st, Forall (fun v => In v VISEMES) (map viseme (fst st)) ->
  Forall (fun v => In v VISEMES)
    (map viseme (fst (fold_left (charStep wordEnd charDuration) word st))).
Proof.
  induction word as [|c word IH]; intros st H; simpl; auto.
  apply IH. apply charStep_vocabulary. exact H.
Qed.

Lemma wordStep_vocabulary (wordDuration : Q) (lastWord word : JsString.t)
    (st : list VisemeSegment * Q) :
  Forall (fun v => In v VISEMES) (map viseme (fst st)) ->
  Forall (fun v => In v VISEMES)
    (map viseme (fst (wordStep wordDuration lastWord st word))).
Proof.
  intros H. destruct st as [vs t]. unfold wordStep.
  match goal with
  | |- context [fold_left ?f word ?st0] =>
      pose proof (chars_vocabulary (t + wordDuration)
                    (wordDuration
                     / inject_Z (Z.of_nat (Nat.max (length word) 1)))
                    word st0 H) as K;
      destruct (fold_left f word st0) as [vs' t']
  end.
  simpl fst in K.
  destruct (negb (JsString.eqb word lastWord)); simpl fst; [|exact K].
  rewrite labels_snoc. apply Forall_snoc; [exact K | simpl; tauto].
Qed.

Lemma words_vocabulary (wordDuration : Q) (lastWord : JsString.t)
    (words : list JsString.t) :
  forall st, Forall (fun v => In v VISEMES) (map viseme (fst st)) ->
  Forall (fun v => In v VISEMES)
    (map viseme (fst (fold_left (wordStep wordDuration lastWord) words st))).
Proof.
  induction words as [|w words IH]; intros st H; simpl; auto.
  apply IH. apply wordStep_vocabulary. exact H.
Qed.

Lemma fallback_vocabulary (text : JsString.t) (duration : Q) :
  Forall (fun v => In v VISEMES)
         (map viseme (generateFallbackVisemes text duration)).
Proof.
  unfold generateFallbackVisemes.
  rewrite JitterFacts.setLastEnd_labels.
  apply words_vocabulary. constructor.
Qed.

(** Whatever the audio, the aligner and the reply are, the chat turn
    sends only visemes of the vocabulary of seven (the six mouth shapes
    and the rest), on either path and through the guard. *)
Theorem chat_turn_visemes_in_vocabulary (audio : option Q)
    (world : AlignerWorld) (reply : JsString.t) :
  Forall (fun v => In v VISEMES)
         (map viseme (fst (chatTurn audio world reply))).
Proof.
  assert (Hguard : forall d,
            Forall (fun v => In v VISEMES)
              (map viseme
                 (match generateFallbackVisemes reply d with
                  | [] => [restSegment 0 (JsNum.max d (1#10)) None]
                  | _ :: _ => generateFallbackVisemes reply d
                  end))).
  { intros d. pose proof (fallback_vocabulary reply d) as H.
    destruct (generateFallbackVisemes reply d); [|exact H].
    constructor; [simpl; tauto | constructor]. }
  destruct (ChatFacts.chatTurn_paths audio world reply)
    as [[_ ->] | [p [ps [_ [_ [_ ->]]]]]].
  - apply Hguard.
  - apply Forall_map. apply ConversionFacts.converted_in_vocabulary.
Qed.

Lemma space_is_lower (c : ascii) : isSpace c = true -> lowerChar c = c.
Proof.
  destruct c as [[] [] [] [] [] [] [] []]; vm_compute;
    intro H; first [reflexivity | discriminate H].
Qed.

Lemma splitFrom_blank_run (s : JsString.t) :
  forallb isSpace s = true -> splitFrom s [] true = [[]].
Proof.
  induction s as [|c s IH]; simpl; [reflexivity|].
  intros H. apply andb_true_iff in H as [Hc Hs]. rewrite Hc. auto.
Qed.

Lemma blank_words (text : JsString.t) :
  forallb isSpace text = true ->
  splitSpaces (toLowerCase text) = [[]]
  \/ splitSpaces (toLowerCase text) = [[]; []].
Proof.
  intros H.
  assert (E : toLowerCase text = text).
  { unfold toLowerCase. induction text as [|c text IH]; [reflexivity|].
    simpl in *. apply andb_true_iff in H as [Hc Hs].
    rewrite (space_is_lower c Hc), (IH Hs). reflexivity. }
  rewrite E. unfold splitSpaces.
  destruct text as [|c text]; [left; reflexivity|].
  simpl in *. apply andb_true_iff in H as [Hc Hs]. rewrite Hc.
  right. rewrite (splitFrom_blank_run text Hs). reflexivity.
Qed.

(** A reply of white space only (or empty) gets no segment from the
    word-based fallback, and the chat turn then answers the single rest
    from 0 to the duration, or to 0.1 if the duration is shorter. *)
Theorem blank_reply_gets_the_rest (text : JsString.t) (audio : option Q)
    (world : AlignerWorld) :
  forallb isSpace text = true ->
  (forall duration, generateFallbackVisemes text duration = [])
  /\ (runForcedAligner world = None ->
      chatTurn audio world text
      = ([mkViseme "rest" 0 (JsNum.max (durationOf audio) (1#10)) None],
         "fallback"%string)).
Proof.
  intros H.
  assert (Hgen : forall duration, generateFallbackVisemes text duration = []).
  { intros duration. unfold generateFallbackVisemes.
    destruct (blank_words text H) as [-> | ->]; reflexivity. }
  split; [exact Hgen|].
  intros Hnull. unfold chatTurn. rewrite Hnull.
  destruct audio as [d|]; simpl durationOf; rewrite Hgen; reflexivity.
Qed.

Lemma blank_reply_gets_the_rest_witness :
  forallb isSpace (lit "  ") = true
  /\ generateFallbackVisemes (lit "  ") (1#2) = [].
Proof.
  split; [reflexivity|].
  exact (proj1 (blank_reply_gets_the_rest (lit "  ") None
                  (mkWorld false None FetchRejects) eq_refl) (1#2)).
Defined.



End FallbackShapeFacts.

(** ** The probed duration *)

Module ProbeFacts.

Import Probe JsNumFacts.

Lemma div_pos (a b : Q) : 0 < a -> 0 < b -> 0 < a / b.
Proof.
  intros Ha Hb. apply Qlt_shift_div_l; [exact Hb|]. lra.
Qed.

Lemma orElse_pos (v d : Q) : 0 <= v -> 0 < d -> 0 < JsNum.orElse v d.
Proof.
  intros Hv Hd. unfold JsNum.orElse.
  destruct (Qeq_bool v 0) eqn:E; [exact Hd|].
  apply Qeq_bool_neq in E.
  destruct (Qle_lt_or_eq 0 v Hv) as [H | H]; [exact H|].
  exfalso. apply E. symmetry. exact H.
Qed.

Lemma numberOrDefault_pos (x : option Q) (d : Q) :
  (forall v, x = Some v -> 0 <= v) -> 0 < d -> 0 < numberOrDefault x d.
Proof.
  intros Hx Hd. destruct x as [v|]; simpl; [|exact Hd].
  apply orElse_pos; auto.
Qed.

Lemma truthySize_pos (info : WavInfo) (s : Q) :
  (forall s', truthySize info = Some s' -> 0 <= s') ->
  truthySize info = Some s -> 0 < s.
Proof.
  intros Hnn Hs. pose proof (Hnn s Hs) as H0.
  unfold truthySize in Hs.
  destruct (data info) as [d|]; [|discriminate].
  destruct (dataChunkSize d) as [x|]; [|discriminate].
  destruct (Qeq_bool x 0) eqn:E; [discriminate|].
  injection Hs as <-. apply Qeq_bool_neq in E.
  destruct (Qle_lt_or_eq 0 x H0) as [H | H]; [exact H|].
  exfalso. apply E. symmetry. exact H.
Qed.

Lemma durationWith_pos (rate : Q) (info : WavInfo) :
  0 < rate -> NonNegative info -> 0 < durationWith rate info.
Proof.
  intros Hrate [Hh Hs]. unfold durationWith.
  assert (Hsize : forall s, truthySize info = Some s -> 0 < s)
    by (intros s; apply truthySize_pos; exact Hs).
  destruct (header info) as [h|]; [|reflexivity].
  destruct (truthySize info) as [s|]; [|reflexivity].
  destruct Hh as [Hr [Hb Hc]].
  pose proof (Hsize s eq_refl) as Hspos.
  cbv zeta.
  pose proof (numberOrDefault_pos (sampleRate h) rate Hr Hrate).
  pose proof (numberOrDefault_pos (bitsPerSample h) 16 Hb ltac:(reflexivity))
    as Hbits.
  pose proof (numberOrDefault_pos (numChannels h) 1 Hc ltac:(reflexivity))
    as Hch.
  assert (Hbps : 0 < JsNum.orElse (numberOrDefault (bitsPerSample h) 16 / 8) 2).
  { apply orElse_pos; [|reflexivity]. apply Qlt_le_weak.
    apply div_pos; [exact Hbits | reflexivity]. }
  apply div_pos; [|assumption].
  apply div_pos; [assumption|].
  apply Qmult_lt_0_compat; assumption.
Qed.

(** Whatever the wave file is (unreadable, without header or data, with
    fields at zero or missing), each of the three servers gets a
    duration above zero, provided no field of the header is negative:
    1.0 when the duration cannot be computed, and no division by zero
    otherwise. *)
Theorem probed_duration_positive (probe : option WavInfo) :
  (forall info, probe = Some info -> NonNegative info) ->
  0 < getAudioDuration probe
  /\ 0 < backupDuration probe
  /\ 0 < firstDuration probe.
Proof.
  intros Hnn. destruct probe as [info|];
    [|repeat split; reflexivity].
  specialize (Hnn info eq_refl).
  split; [apply durationWith_pos; [reflexivity | exact Hnn]|].
  split; [apply durationWith_pos; [reflexivity | exact Hnn]|].
  destruct Hnn as [Hh Hs]. unfold firstDuration.
  assert (Hsize : forall s, truthySize info = Some s -> 0 < s)
    by (intros s; apply truthySize_pos; exact Hs).
  destruct (truthySize info) as [s|]; [|reflexivity].
  pose proof (Hsize s eq_refl) as Hspos.
  destruct (header info) as [h|]; [|reflexivity].
  destruct Hh as [Hr [Hb Hc]].
  pose proof (numberOrDefault_pos (numChannels h) 1 Hc ltac:(reflexivity))
    as Hch.
  assert (Helse : 0 < s / (44100 * 2 * numberOrDefault (numChannels h) 1)).
  { apply div_pos; [assumption|].
    apply Qmult_lt_0_compat; [reflexivity | assumption]. }
  destruct (sampleRate h) as [r|] eqn:Er; [|exact Helse].
  destruct (Qeq_bool r 0) eqn:E0; [exact Helse|].
  assert (Hrpos : 0 < r).
  { pose proof (orElse_pos r 1 (Hr r eq_refl) ltac:(reflexivity)) as H.
    unfold JsNum.orElse in H. rewrite E0 in H. exact H. }
  cbv zeta.
  assert (Hbps : 0 < match bitsPerSample h with
                     | Some b => JsNum.orElse (b / 8) 2
                     | None => 2
                     end).
  { destruct (bitsPerSample h) as [b|]; [|reflexivity].
    apply orElse_pos; [|reflexivity].
    specialize (Hb b eq_refl).
    unfold Qdiv. apply Qmult_le_0_compat; [exact Hb | discriminate]. }
  apply div_pos; [|assumption].
  apply div_pos; [assumption|].
  apply Qmult_lt_0_compat; assumption.
Qed.

Lemma probed_duration_positive_witness :
  0 < getAudioDuration
        (Some (mkInfo (Some (mkHeader (Some 22050) None (Some 0)))
                      (Some (mkData (Some 44100))))).
Proof.
  apply (probed_duration_positive
           (Some (mkInfo (Some (mkHeader (Some 22050) None (Some 0)))
                         (Some (mkData (Some 44100)))))).
  intros info E. injection E as <-.
  split; [split; [|split]|]; simpl; intros x Hx;
    first [discriminate Hx | injection Hx as <-; discriminate].
Defined.

(** On a wave file whose header gives the sample rate, the sample width
    and the number of channels (none at zero) the three servers compute
    the same duration, the data size over the byte rate; when the sample
    rate is missing the enhanced server assumes 22050 Hz and
    server_backup.js 44100 Hz, and so gets twice the duration. *)
Theorem probers_agree_on_full_header (r b c s : Q) :
  ~ r == 0 -> ~ b == 0 -> ~ c == 0 -> ~ s == 0 ->
  let info := mkInfo (Some (mkHeader (Some r) (Some b) (Some c)))
                     (Some (mkData (Some s))) in
  let noRate := mkInfo (Some (mkHeader None (Some b) (Some c)))
                       (Some (mkData (Some s))) in
  getAudioDuration (Some info) = s / (b / 8 * c) / r
  /\ backupDuration (Some info) = s / (b / 8 * c) / r
  /\ firstDuration (Some info) = s / (b / 8 * c) / r
  /\ getAudioDuration (Some noRate) == 2 * backupDuration (Some noRate).
Proof.
  intros Hr Hb Hc Hs info noRate.
  assert (Er : Qeq_bool r 0 = false)
    by (destruct (Qeq_bool r 0) eqn:E; [apply Qeq_bool_iff in E; contradiction | reflexivity]).
  assert (Eb : Qeq_bool b 0 = false)
    by (destruct (Qeq_bool b 0) eqn:E; [apply Qeq_bool_iff in E; contradiction | reflexivity]).
  assert (Ec : Qeq_bool c 0 = false)
    by (destruct (Qeq_bool c 0) eqn:E; [apply Qeq_bool_iff in E; contradiction | reflexivity]).
  assert (Es : Qeq_bool s 0 = false)
    by (destruct (Qeq_bool s 0) eqn:E; [apply Qeq_bool_iff in E; contradiction | reflexivity]).
  assert (Eb8 : Qeq_bool (b / 8) 0 = false).
  { destruct (Qeq_bool (b / 8) 0) eqn:E; [|reflexivity].
    apply Qeq_bool_iff in E. exfalso. apply Hb.
    assert (E8 : b == b / 8 * 8) by field. rewrite E8, E. reflexivity. }
  subst info noRate.
  unfold getAudioDuration, backupDuration, firstDuration, durationWith,
    truthySize, numberOrDefault, JsNum.orElse; simpl.
  rewrite Er, Eb, Ec, Es, Eb8.
  split; [reflexivity|]. split; [reflexivity|]. split; [reflexivity|].
  field. split; assumption.
Qed.

Lemma probers_agree_on_full_header_witness :
  getAudioDuration
    (Some (mkInfo (Some (mkHeader (Some 22050) (Some 16) (Some 1)))
                  (Some (mkData (Some 44100)))))
  = 44100 / (16 / 8 * 1) / 22050.
Proof.
  exact (proj1 (probers_agree_on_full_header 22050 16 1 44100
                  ltac:(discriminate) ltac:(discriminate)
                  ltac:(discriminate) ltac:(discriminate))).
Defined.

End ProbeFacts.

(** ** The cleaned text *)

Module TtsFacts.

Import JsString Tts.

Lemma trimStart_suffix (s : JsString.t) :
  exists pre, s = pre ++ trimStart s.
Proof.
  induction s as [|c s [pre IH]]; [exists []; reflexivity|].
  simpl. destruct (isSpace c).
  - exists (c :: pre). simpl. rewrite <- IH. reflexivity.
  - exists []. reflexivity.
Qed.

Lemma trimStart_head (s : JsString.t) : headNotSpace (trimStart s).
Proof.
  induction s as [|c s IH]; [exact I|].
  simpl. destruct (isSpace c) eqn:E; [exact IH | exact E].
Qed.

Lemma trimStart_fixed (s : JsString.t) : headNotSpace s -> trimStart s = s.
Proof.
  destruct s as [|c s]; [reflexivity|]. simpl. intros ->. reflexivity.
Qed.

Lemma trimEnd_prefix (s : JsString.t) :
  exists suf, s = trimEnd s ++ suf.
Proof.
  unfold trimEnd. destruct (trimStart_suffix (rev s)) as [pre H].
  exists (rev pre). rewrite <- rev_app_distr, <- H, rev_involutive.
  reflexivity.
Qed.

Lemma SingleSpaced_tail (c : ascii) (s : JsString.t) :
  SingleSpaced (c :: s) -> SingleSpaced s.
Proof. destruct s; [intros; exact I | intros [_ H]; exact H]. Qed.

Lemma SingleSpaced_suffix (pre s : JsString.t) :
  SingleSpaced (pre ++ s) -> SingleSpaced s.
Proof.
  induction pre as [|c pre IH]; [auto|].
  intros H. apply IH. apply (SingleSpaced_tail c). exact H.
Qed.

Lemma SingleSpaced_prefix (s suf : JsString.t) :
  SingleSpaced (s ++ suf) -> SingleSpaced s.
Proof.
  induction s as [|a [|b s] IH]; intros H; try exact I.
  destruct H as [Hab H]. split; [exact Hab | apply IH; exact H].
Qed.

(** The shape the second [replace] leaves. *)
Lemma collapseFrom_shape (s : JsString.t) :
  Forall (fun c => isSpeakable c = true) s ->
  forall inRun,
    Forall (fun c => isSpeakable c = true
                     /\ (isSpace c = true -> c = " "%char))
           (collapseFrom s inRun)
    /\ SingleSpaced (collapseFrom s inRun)
    /\ (inRun = true -> headNotSpace (collapseFrom s inRun)).
Proof.
  induction s as [|c s IH]; intros Hall inRun.
  - repeat split; try constructor.
  - inversion Hall as [|? ? Hc Hs]; subst. simpl.
    destruct (isSpace c) eqn:E.
    + destruct inRun.
      * apply IH. exact Hs.
      * destruct (IH Hs true) as [Hf [Hsp Hhead]].
        split; [constructor; [split; auto|exact Hf]|].
        split; [|discriminate].
        specialize (Hhead eq_refl).
        destruct (collapseFrom s true) as [|b r]; [exact I|].
        split; [intros _; exact Hhead | exact Hsp].
    + destruct (IH Hs false) as [Hf [Hsp _]].
      split; [constructor; [split; [exact Hc | congruence] | exact Hf]|].
      split; [|intros _; exact E].
      destruct (collapseFrom s false) as [|b r]; [exact I|].
      split; [congruence | exact Hsp].
Qed.

Lemma collapseFrom_fixed (s : JsString.t) :
  Forall (fun c => isSpace c = true -> c = " "%char) s ->
  SingleSpaced s ->
  forall inRun, (inRun = true -> headNotSpace s) ->
  collapseFrom s inRun = s.
Proof.
  induction s as [|c s IH]; intros Hall Hsp inRun Hhead; [reflexivity|].
  inversion Hall as [|? ? Hc Hs]; subst. simpl.
  pose proof (SingleSpaced_tail c s Hsp) as Hsp'.
  destruct (isSpace c) eqn:E.
  - destruct inRun.
    + specialize (Hhead eq_refl). simpl in Hhead. congruence.
    + assert (Ec : c = " "%char) by auto.
      f_equal; [symmetry; exact Ec|]. apply IH; auto.
      intros _. destruct s as [|b s]; [exact I|].
      destruct Hsp as [Hab _]. simpl. auto.
  - f_equal. apply IH; auto. discriminate.
Qed.

Lemma cleaned_output (text : JsString.t) : Cleaned (cleanTextForTTS text).
Proof.
  unfold cleanTextForTTS, trim, collapseSpaces.
  set (f := filter isSpeakable text).
  assert (Hf : Forall (fun c => isSpeakable c = true) f).
  { apply Forall_forall. intros c Hc. apply filter_In in Hc. tauto. }
  destruct (collapseFrom_shape f Hf false) as [Hall [Hsp _]].
  set (c := collapseFrom f false) in *.
  destruct (trimStart_suffix c) as [pre Hpre].
  set (t1 := trimStart c) in *.
  destruct (trimEnd_prefix t1) as [suf Hsuf].
  set (t2 := trimEnd t1) in *.
  assert (Hall1 : Forall (fun c => isSpeakable c = true
                                   /\ (isSpace c = true -> c = " "%char)) t1)
    by (rewrite Hpre in Hall; apply Forall_app in Hall; tauto).
  assert (Hsp1 : SingleSpaced t1)
    by (rewrite Hpre in Hsp; apply (SingleSpaced_suffix pre); exact Hsp).
  split; [rewrite Hsuf in Hall1; apply Forall_app in Hall1; tauto|].
  split; [rewrite Hsuf in Hsp1; apply (SingleSpaced_prefix t2 suf); exact Hsp1|].
  split.
  - apply trimStart_fixed.
    pose proof (trimStart_head c) as Hh. fold t1 in Hh.
    rewrite Hsuf in Hh. destruct t2; [exact I | exact Hh].
  - subst t2. unfold trimEnd. rewrite rev_involutive.
    apply trimStart_fixed. apply trimStart_head.
Qed.

Lemma cleaned_fixed (s : JsString.t) : Cleaned s -> cleanTextForTTS s = s.
Proof.
  intros [Hall [Hsp [Hstart Hend]]].
  unfold cleanTextForTTS, trim, collapseSpaces.
  assert (Hf : filter isSpeakable s = s).
  { clear - Hall. induction Hall as [|c s [Hc _] _ IH]; [reflexivity|].
    simpl. rewrite Hc, IH. reflexivity. }
  rewrite Hf.
  rewrite collapseFrom_fixed;
    [|eapply Forall_impl; [|exact Hall]; simpl; tauto | exact Hsp
     | discriminate].
  rewrite Hstart. unfold trimEnd. rewrite Hend. apply rev_involutive.
Qed.

(** The text given to the synthesiser holds only letters, digits,
    underscores, the kept punctuation and single blanks, with no blank
    at either end; a text of that shape is left as it is, so cleaning a
    cleaned text changes nothing. *)
Theorem cleaned_text_is_normal (text : JsString.t) :
  Cleaned (cleanTextForTTS text)
  /\ (Cleaned text -> cleanTextForTTS text = text)
  /\ cleanTextForTTS (cleanTextForTTS text) = cleanTextForTTS text.
Proof.
  split; [apply cleaned_output|].
  split; [apply cleaned_fixed|].
  apply cleaned_fixed. apply cleaned_output.
Qed.

Lemma cleaned_text_is_normal_witness :
  cleanTextForTTS (lit "  Hi,   you <3  ") = lit "Hi, you 3"
  /\ cleanTextForTTS (lit "Hi, you 3") = lit "Hi, you 3".
Proof.
  assert (E : cleanTextForTTS (lit "  Hi,   you <3  ") = lit "Hi, you 3")
    by (vm_compute; reflexivity).
  split; [exact E|].
  pose proof (proj1 (cleaned_text_is_normal (lit "  Hi,   you <3  "))) as C.
  rewrite E in C.
  exact (proj1 (proj2 (cleaned_text_is_normal (lit "Hi, you 3"))) C).
Defined.

End TtsFacts.

(** ** The aligned path of server_backup.js *)

Module BackupAlignedFacts.

Import JsString BackupAligned JsNumFacts SequenceFacts.

Lemma round_integer (n : Z) : JsNum.roundHalfAway (inject_Z n) = n.
Proof.
  unfold JsNum.roundHalfAway.
  destruct (Qle_bool 0 (inject_Z n)).
  - destruct (floor_bounds (inject_Z n + (1#2))) as [Hlo Hhi].
    apply Z.le_antisymm; apply inject_Z_lt_le; zlra.
  - destruct (floor_bounds (- inject_Z n + (1#2))) as [Hlo Hhi].
    rewrite <- inject_Z_opp in Hlo, Hhi.
    assert (E : Qfloor (inject_Z (- n) + (1#2)) = (- n)%Z).
    { apply Z.le_antisymm; apply inject_Z_lt_le; zlra. }
    rewrite inject_Z_opp in E. rewrite E. lia.
Qed.

(** Rounding to milliseconds twice is rounding once. *)
Lemma toFixed3_idempotent (x : Q) :
  JsNum.toFixed3 (JsNum.toFixed3 x) = JsNum.toFixed3 x.
Proof.
  unfold JsNum.toFixed3 at 1 3.
  rewrite (roundHalfAway_comp (JsNum.toFixed3 x * 1000)
             (inject_Z (JsNum.roundHalfAway (x * 1000)))).
  - rewrite round_integer. reflexivity.
  - rewrite toFixed3_value. field.
Qed.

Lemma normalizePhone_rounded (w : WordJson) (ps : list PhoneJson) :
  forall acc, Forall Rounded acc ->
  Forall Rounded (fold_left (normalizePhone w) ps acc).
Proof.
  induction ps as [|p ps IH]; intros acc H; simpl; [exact H|].
  apply IH. unfold normalizePhone.
  destruct (negb (Enhanced.truthyStr (j_phone p))); [exact H|].
  apply Forall_snoc; [exact H|].
  split; simpl; rewrite toFixed3_idempotent; reflexivity.
Qed.

Lemma normalizeWord_skips (acc : list Phone) (w : WordJson) :
  phonesOfWord w = None -> normalizeWord acc w = acc.
Proof. intros H. unfold normalizeWord. rewrite H. reflexivity. Qed.

Lemma normalize_filter (words : list WordJson) :
  forall acc,
    fold_left normalizeWord words acc
    = fold_left normalizeWord
        (filter (fun w => match phonesOfWord w with
                          | Some _ => true
                          | None => false
                          end) words) acc.
Proof.
  induction words as [|w words IH]; intros acc; simpl; [reflexivity|].
  destruct (phonesOfWord w) eqn:E; simpl.
  - apply IH.
  - rewrite (normalizeWord_skips acc w E). apply IH.
Qed.

Lemma normalize_rounded (words : list WordJson) :
  forall acc, Forall Rounded acc ->
  Forall Rounded (fold_left normalizeWord words acc).
Proof.
  induction words as [|w words IH]; intros acc H; simpl; [exact H|].
  apply IH. unfold normalizeWord.
  destruct (phonesOfWord w); [apply normalizePhone_rounded|]; exact H.
Qed.

Lemma normalize_nothing (words : list WordJson) :
  Forall (fun w => phonesOfWord w = None) words ->
  forall acc, fold_left normalizeWord words acc = acc.
Proof.
  induction 1 as [|w words Hw _ IH]; intros acc; simpl; [reflexivity|].
  rewrite (normalizeWord_skips acc w Hw). apply IH.
Qed.

(** The client of server_backup.js drops every word without an aligned
    word or without a phone list (its result is that of the response
    without these words), and leaves all times at whole milliseconds. *)
Theorem backup_normalizer_drops_unaligned (words : list WordJson) :
  normalizeWords words
  = normalizeWords
      (filter (fun w => match phonesOfWord w with
                        | Some _ => true
                        | None => false
                        end) words)
  /\ (Forall (fun w => phonesOfWord w = None) words ->
      normalizeWords words = [])
  /\ Forall Rounded (normalizeWords words).
Proof.
  split; [apply normalize_filter|]. split.
  - intros H. apply normalize_nothing. exact H.
  - apply normalize_rounded. constructor.
Qed.

Lemma backup_normalizer_drops_unaligned_witness :
  normalizeWords [mkWordJson None (Some 0) (Some 1)] = [].
Proof.
  apply (proj1 (proj2 (backup_normalizer_drops_unaligned
                         [mkWordJson None (Some 0) (Some 1)]))).
  repeat constructor.
Defined.

Lemma backup_table_values :
  Forall (fun v => In v MOUTH_SHAPES) (map snd PHONEME_TO_VISEME).
Proof.
  apply Forall_forall. intros v Hv.
  assert (H : forallb (fun v => existsb (String.eqb v) MOUTH_SHAPES)
                      (map snd PHONEME_TO_VISEME) = true)
    by (vm_compute; reflexivity).
  rewrite forallb_forall in H. specialize (H v Hv).
  apply existsb_exists in H as [x [Hx E]].
  apply String.eqb_eq in E. subst x. exact Hx.
Qed.

Lemma backup_visemeOf_shape (ph : string) : In (visemeOf ph) MOUTH_SHAPES.
Proof.
  unfold visemeOf.
  destruct (Enhanced.lookup ph PHONEME_TO_VISEME) as [v|] eqn:E.
  - apply ConversionFacts.lookup_in in E. pose proof backup_table_values as T.
    rewrite Forall_forall in T. auto.
  - simpl. tauto.
Qed.

(** The two outcomes of an iteration of [phonemesToVisemes]. *)
Lemma visemeStep_cases (vis : list VisemeSegment) (p : Phone) :
  (visemeStep vis p
   = vis ++ [mkViseme (visemeOf (b_phoneme p)) (JsNum.toFixed3 (b_start p))
                      (JsNum.toFixed3 (b_end p)) None]
   /\ match rev vis with
      | lastSeg :: _ =>
          String.eqb (viseme lastSeg) (visemeOf (b_phoneme p))
          && closeTo (end_ lastSeg) (b_start p) = false
      | [] => True
      end)
  \/ (exists front lastSeg,
        vis = front ++ [lastSeg]
        /\ visemeStep vis p
           = front ++ [mkViseme (viseme lastSeg) (start lastSeg) (b_end p)
                                (confidence lastSeg)]).
Proof.
  unfold visemeStep. cbv zeta.
  destruct (rev vis) as [|lastSeg before] eqn:E; [left; auto|].
  destruct (String.eqb (viseme lastSeg) (visemeOf (b_phoneme p))
            && closeTo (end_ lastSeg) (b_start p)) eqn:T; [|left; auto].
  right. exists (rev before), lastSeg. split; [|reflexivity].
  rewrite <- (rev_involutive vis), E. reflexivity.
Qed.

Lemma visemeStep_shape (vis : list VisemeSegment) (p : Phone) :
  Forall (fun s => In (viseme s) MOUTH_SHAPES) vis ->
  Forall (fun s => In (viseme s) MOUTH_SHAPES) (visemeStep vis p)
  /\ (length vis <= length (visemeStep vis p) <= S (length vis))%nat
  /\ visemeStep vis p <> [].
Proof.
  intros H.
  destruct (visemeStep_cases vis p) as [[-> _] | [front [l [-> ->]]]].
  - split; [apply Forall_snoc; [exact H | apply backup_visemeOf_shape]|].
    rewrite length_app. simpl. split; [lia|]. destruct vis; discriminate.
  - apply Forall_app in H as [Hf Hl]. inversion Hl as [|? ? Hv _]; subst.
    split; [apply Forall_snoc; assumption|].
    rewrite !length_app. simpl. split; [lia|]. destruct front; discriminate.
Qed.

Lemma fold_shape (phones : list Phone) :
  forall vis,
    Forall (fun s => In (viseme s) MOUTH_SHAPES) vis ->
    Forall (fun s => In (viseme s) MOUTH_SHAPES)
           (fold_left visemeStep phones vis)
    /\ (length vis <= length (fold_left visemeStep phones vis)
        <= length vis + length phones)%nat
    /\ (phones <> [] -> fold_left visemeStep phones vis <> []).
Proof.
  induction phones as [|p phones IH]; intros vis H; simpl.
  - split; [exact H|]. split; [lia | congruence].
  - destruct (visemeStep_shape vis p H) as [Hs [Hl Hne]].
    destruct (IH (visemeStep vis p) Hs) as [Hs' [Hl' Hne']].
    split; [exact Hs'|]. split; [lia|]. intros _.
    destruct phones as [|q phones]; [exact Hne|].
    apply Hne'. discriminate.
Qed.



Lemma NoJoinable_front (front : list VisemeSegment) (a b : VisemeSegment) :
  viseme b = viseme a -> start b = start a ->
  NoJoinable (front ++ [a]) -> NoJoinable (front ++ [b]).
Proof.
  intros Hv Hs. induction front as [|x [|y front] IH]; intros H.
  - exact I.
  - destruct H as [H _]. split; [|exact I].
    unfold joinable in *. rewrite Hv, Hs. exact H.
  - destruct H as [Hxy H]. split; [exact Hxy | apply IH; exact H].
Qed.

Lemma NoJoinable_snoc (vis : list VisemeSegment) (s : VisemeSegment) :
  NoJoinable vis ->
  match rev vis with
  | lastSeg :: _ => joinable lastSeg s = false
  | [] => True
  end ->
  NoJoinable (vis ++ [s]).
Proof.
  induction vis as [|a [|b vis] IH]; intros H Hs.
  - exact I.
  - simpl in Hs. split; [exact Hs | exact I].
  - destruct H as [Hab H]. split; [exact Hab|]. apply IH; [exact H|].
    simpl rev in *. destruct (rev vis) as [|x xs]; simpl in *; exact Hs.
Qed.

Lemma closeTo_comp (e x y : Q) : x == y -> closeTo e x = closeTo e y.
Proof.
  intros H. unfold closeTo.
  rewrite (JsNumFacts.double_comp x y H). reflexivity.
Qed.

Lemma visemeStep_no_joinable (vis : list VisemeSegment) (p : Phone) :
  Rounded p -> NoJoinable vis -> NoJoinable (visemeStep vis p).
Proof.
  intros [Hstart _] H.
  destruct (visemeStep_cases vis p) as [[-> Htest] | [front [l [-> ->]]]].
  - apply NoJoinable_snoc; [exact H|].
    destruct (rev vis) as [|lastSeg ?]; [exact I|].
    unfold joinable. simpl.
    rewrite (closeTo_comp _ _ _ Hstart). exact Htest.
  - apply (NoJoinable_front front l); [reflexivity | reflexivity | exact H].
Qed.

Lemma fold_no_joinable (phones : list Phone) :
  Forall Rounded phones ->
  forall vis, NoJoinable vis -> NoJoinable (fold_left visemeStep phones vis).
Proof.
  induction 1 as [|p phones Hp _ IH]; intros vis H; simpl; [exact H|].
  apply IH. apply visemeStep_no_joinable; assumption.
Qed.

(** On phones whose times are whole milliseconds, as its own client
    leaves them, [phonemesToVisemes] returns no two neighbours with the
    same viseme less than 35 ms apart: what it could merge, it merged. *)
Theorem backup_conversion_leaves_no_flicker (phones : list Phone)
    (words : list WordJson) :
  (Forall Rounded phones -> NoJoinable (phonemesToVisemes phones))
  /\ NoJoinable (phonemesToVisemes (normalizeWords words)).
Proof.
  split.
  - intros H. apply fold_no_joinable; [exact H | exact I].
  - apply fold_no_joinable; [|exact I].
    apply normalize_rounded. constructor.
Qed.

Lemma backup_conversion_leaves_no_flicker_witness :
  NoJoinable
    (phonemesToVisemes [mkBPhone "M" 0 (1#10); mkBPhone "B" (11#100) (2#10)]).
Proof.
  apply (proj1 (backup_conversion_leaves_no_flicker
                  [mkBPhone "M" 0 (1#10); mkBPhone "B" (11#100) (2#10)] [])).
  constructor; [split; reflexivity|].
  constructor; [split; reflexivity | constructor].
Defined.

Lemma build_empty (rand : nat -> Q) (visemes : list string) (d : Q) :
  Backup.buildVisemeTimeline rand visemes d = [] <-> visemes = [].
Proof.
  unfold Backup.buildVisemeTimeline. destruct visemes as [|v rest].
  - tauto.
  - split; [|discriminate]. intros H.
    apply (f_equal (@length VisemeSegment)) in H.
    rewrite TimelineFacts.setLastEnd_length in H. discriminate H.
Qed.

(** The handler of server_backup.js has no guard against an empty
    timeline: it answers one exactly when the reply is empty and no
    aligned phone is used (no audio, or nothing from the aligner). *)
Theorem backup_turn_empty_timeline (rand : nat -> Q) (audio : option Q)
    (aligned : option (list Phone)) (reply : JsString.t) :
  chatTimeline rand audio aligned reply = []
  <-> reply = []
      /\ (audio = None \/ aligned = None \/ aligned = Some []).
Proof.
  assert (Hseq : Backup.textToVisemeSequence reply = [] <-> reply = [])
    by apply BackupSequenceFacts.sequence_empty.
  assert (Hh : Backup.buildVisemeTimeline rand
                 (Backup.textToVisemeSequence reply)
                 (Enhanced.durationOf audio) = [] <-> reply = [])
    by (rewrite build_empty; exact Hseq).
  unfold chatTimeline. cbv zeta.
  destruct audio as [d|].
  - destruct aligned as [[|p ps]|].
    + rewrite Hh. intuition.
    + split.
      * intros H.
        destruct (fold_shape (p :: ps) [] (Forall_nil _)) as [_ [_ Hne]].
        exfalso. apply Hne; [discriminate | exact H].
      * intros [_ [H | [H | H]]]; discriminate H.
    + rewrite Hh. intuition.
  - rewrite Hh. intuition.
Qed.

Lemma backup_turn_empty_timeline_witness :
  chatTimeline (constRand (1#2)) (Some 1) None [] = [].
Proof.
  apply (proj2 (backup_turn_empty_timeline (constRand (1#2)) (Some 1) None [])).
  split; [reflexivity | right; left; reflexivity].
Defined.

End BackupAlignedFacts.

(** ** The sprite server *)

Module SpriteServerFacts.

Import JsString SpriteServer.

(** The frames sent to a client play forth and back: there are twice as
    many as files, the list reads the same from both ends, and the quiet
    frame, the first file, is also the last frame. *)
Theorem sprites_play_forth_and_back (readBase64 : nat -> JsString.t) :
  length (sprites readBase64) = 50%nat
  /\ rev (sprites readBase64) = sprites readBase64
  /\ (forall k, (k < 50)%nat ->
        nth_error (sprites readBase64) k
        = nth_error (sprites readBase64) (49 - k))
  /\ quietFrame readBase64 = Some (mkSprite (readBase64 1%nat) "PNG")
  /\ nth_error (sprites readBase64) 49 = quietFrame readBase64.
Proof.
  assert (Hlen : length (sprites readBase64) = 50%nat).
  { unfold sprites, loadSprites.
    rewrite length_app, length_rev, length_map, length_seq. reflexivity. }
  assert (Hrev : rev (sprites readBase64) = sprites readBase64).
  { unfold sprites. rewrite rev_app_distr, rev_involutive. reflexivity. }
  assert (Hmirror : forall k, (k < 50)%nat ->
            nth_error (sprites readBase64) k
            = nth_error (sprites readBase64) (49 - k)).
  { intros k Hk. rewrite <- Hrev at 1. rewrite nth_error_rev, Hlen.
    destruct (Nat.ltb_spec k 50); [|lia].
    replace (50 - S k)%nat with (49 - k)%nat by lia. reflexivity. }
  split; [exact Hlen|]. split; [exact Hrev|]. split; [exact Hmirror|].
  split; [reflexivity|].
  unfold quietFrame. rewrite (Hmirror 49%nat) by lia. reflexivity.
Qed.

Lemma sprites_play_forth_and_back_witness :
  nth_error (sprites (fun _ => lit "iVBOR")) 7
  = nth_error (sprites (fun _ => lit "iVBOR")) (49 - 7).
Proof.
  exact (proj1 (proj2 (proj2
           (sprites_play_forth_and_back (fun _ => lit "iVBOR"))))
           7%nat ltac:(lia)).
Defined.

Lemma step_keeps_prompt (conversation : list Message) (e : Event) :
  (exists tail, conversation = SYSTEM_PROMPT :: tail /\ Forall Spoken tail) ->
  exists tail, step conversation e = SYSTEM_PROMPT :: tail
               /\ Forall Spoken tail.
Proof.
  intros [tail [-> H]]. destruct e as [text | reply |]; simpl.
  - exists (tail ++ [mkMessage "user" (Some text)]).
    split; [reflexivity|]. apply Forall_app. split; [exact H|].
    constructor; [left; reflexivity | constructor].
  - exists (tail ++ [mkMessage "assistant" reply]).
    split; [reflexivity|]. apply Forall_app. split; [exact H|].
    constructor; [right; reflexivity | constructor].
  - exists []. split; [reflexivity | constructor].
Qed.

Lemma run_keeps_prompt (events : list Event) :
  forall conversation,
    (exists tail, conversation = SYSTEM_PROMPT :: tail
                  /\ Forall Spoken tail) ->
    exists tail, fold_left step events conversation = SYSTEM_PROMPT :: tail
                 /\ Forall Spoken tail.
Proof.
  induction events as [|e events IH]; intros conversation H; simpl.
  - exact H.
  - apply IH. apply step_keeps_prompt. exact H.
Qed.

(** Whatever is pushed and however the pushes of several calls and the
    calls of [/stop] are interleaved, the conversation begins with the
    system prompt, followed by messages of the user and of the assistant
    only; a call of [/stop] leaves the system prompt alone; and one call
    of [callLLM] is its push of the user's message followed, unless the
    request throws, by the push of the answer. *)
Theorem conversation_keeps_system_prompt (events : list Event) :
  (exists tail, run events = SYSTEM_PROMPT :: tail /\ Forall Spoken tail)
  /\ run (events ++ [Stop]) = [SYSTEM_PROMPT]
  /\ (forall conversation message outcome,
        fst (callLLM conversation message outcome)
        = fold_left step (eventsOf message outcome) conversation).
Proof.
  assert (H : exists tail, run events = SYSTEM_PROMPT :: tail
                           /\ Forall Spoken tail).
  { apply run_keeps_prompt. exists []. split; [reflexivity | constructor]. }
  split; [exact H|]. split.
  - unfold run in *. rewrite fold_left_app. simpl.
    destruct H as [tail [-> _]]. reflexivity.
  - intros conversation message [|json]; reflexivity.
Qed.

End SpriteServerFacts.

(** ** The face rig *)

Module FaceRigFacts.

Import FaceRig JsNumFacts.

Lemma update_cases (b : Q) :
  (b < 1 /\ update b = b + (5#100)) \/ (1 <= b /\ update b = b).
Proof.
  unfold update, Enhanced.ltb.
  destruct (Qle_bool 1 b) eqn:E; simpl.
  - right. split; [apply Qle_bool_iff; exact E | reflexivity].
  - left. split; [apply Qle_bool_false; exact E | reflexivity].
Qed.

Lemma blend_value (n : nat) :
  blendAfter n == inject_Z (Z.of_nat (Nat.min n 20)) * (5#100).
Proof.
  induction n as [|n IH]; [reflexivity|].
  simpl blendAfter.
  destruct (update_cases (blendAfter n)) as [[Hlt ->] | [Hge ->]];
    rewrite IH in *.
  - assert (Hn : (n < 20)%nat).
    { destruct (Nat.lt_ge_cases n 20) as [H | H]; [exact H|].
      exfalso. rewrite Nat.min_r in Hlt by exact H.
      revert Hlt. vm_compute. discriminate. }
    rewrite !Nat.min_l by lia.
    rewrite Nat2Z.inj_succ, <- Z.add_1_r, inject_Z_plus.
    change (inject_Z 1) with 1. zlra.
  - assert (Hn : (20 <= n)%nat).
    { destruct (Nat.lt_ge_cases n 20) as [H | H]; [|exact H].
      exfalso. rewrite Nat.min_l in Hge by lia.
      assert (inject_Z (Z.of_nat n) <= inject_Z 19)
        by (rewrite <- Zle_Qle; lia).
      change (inject_Z 19) with 19 in *. zlra. }
    rewrite !Nat.min_r by lia. reflexivity.
Qed.

(** The emotion layer fades in and then stays: from the 0 of the
    constructor the blend never decreases and never reaches 1.05, it is
    at least 1 from the twentieth frame on, and from then on [update]
    leaves it alone. *)
Theorem emotion_fades_in_once (n : nat) :
  0 <= blendAfter n
  /\ blendAfter n < 1 + (5#100)
  /\ blendAfter n <= blendAfter (S n)
  /\ ((20 <= n)%nat ->
      1 <= blendAfter n /\ blendAfter (S n) = blendAfter n).
Proof.
  assert (Hbound : forall k, 0 <= blendAfter k /\ blendAfter k < 1 + (5#100)).
  { induction k as [|k [H0 H1]]; [split; [discriminate | reflexivity]|].
    simpl blendAfter.
    destruct (update_cases (blendAfter k)) as [[Hlt ->] | [Hge ->]];
      split; lra. }
  destruct (Hbound n) as [H0 H1].
  split; [exact H0|]. split; [exact H1|]. split.
  - simpl blendAfter.
    destruct (update_cases (blendAfter n)) as [[Hlt ->] | [Hge ->]]; lra.
  - intros Hn.
    assert (Hone : 1 <= blendAfter n).
    { rewrite blend_value, Nat.min_r by exact Hn. discriminate. }
    split; [exact Hone|]. simpl blendAfter.
    destruct (update_cases (blendAfter n)) as [[Hlt _] | [_ ->]];
      [lra | reflexivity].
Qed.

Lemma emotion_fades_in_once_witness :
  (20 <= 25)%nat /\ 1 <= blendAfter 25.
Proof.
  split; [lia|].
  exact (proj1 (proj2 (proj2 (proj2 (emotion_fades_in_once 25))) ltac:(lia))).
Defined.

End FaceRigFacts.
